(** * fix_status.py: anchored import injection and field-index rewriting

    A shallow embedding of [fix_status.py], the one-shot script that
    patches [cmd/tmux-intray/status.go]: it inserts the [internal/storage]
    import after the [cmd] import and replaces six magic field indexes by
    [storage.Field*] constants.

    Characters are modelled as [ascii] (one byte each).  Every character
    the script looks at is ASCII, and UTF-8 never uses an ASCII byte inside
    a multi-byte sequence, so matching on bytes agrees with matching on the
    decoded code points of a well-formed UTF-8 file.  The file is opened
    in text mode without an [encoding] argument; the encoding is taken to
    be UTF-8, and content that is not well-formed UTF-8 makes the read
    raise UnicodeDecodeError.  Failures of the file system other than a
    missing file and a directory in the file's place are not modelled. *)

From Stdlib Require Import Ascii String.
From stdpp Require Import gmap strings list.

Abbreviation text := (list ascii).

(** A Python string literal of the script. *)
Definition lit (s : string) : text := list_ascii_of_string s.

Definition LF : ascii := ascii_of_nat 10.
Definition CR : ascii := ascii_of_nat 13.
Definition TAB : ascii := ascii_of_nat 9.
Definition DQ : ascii := ascii_of_nat 34.
Definition BACKSLASH : ascii := ascii_of_nat 92.

(** ** String primitives *)

(** [s.startswith(p)] *)
Fixpoint starts_with (p s : text) : bool :=
  match p, s with
  | [], _ => true
  | _ :: _, [] => false
  | a :: p', b :: s' => Ascii.eqb a b && starts_with p' s'
  end.

(** [p in s] on Python strings: [p] occurs in [s] as a contiguous run. *)
Fixpoint contains (p s : text) : bool :=
  match s with
  | [] => starts_with p []
  | _ :: s' => starts_with p s || contains p s'
  end.

(** The remainder of [s] after a leading [p], if [s] starts with [p]. *)
Fixpoint strip_prefix (p s : text) : option text :=
  match p, s with
  | [], _ => Some s
  | _ :: _, [] => None
  | a :: p', b :: s' => if Ascii.eqb a b then strip_prefix p' s' else None
  end.

(** [''.join(lines)] *)
Definition join (lines : list text) : text := concat lines.

(** ** The anchor injection loop (lines 8-12) *)

Section Injector.
Variable anchor : text.
Variable insertion : text.

(** One iteration of [for line in lines]: append the line, then append
    the insertion when the anchor occurs in the line. *)
Definition inject_step (new_lines : list text) (line : text) : list text :=
  let new_lines := new_lines ++ [line] in
  if contains anchor line then new_lines ++ [insertion] else new_lines.

(** The loop, started from [new_lines = []]. *)
Definition inject_from (new_lines lines : list text) : list text :=
  fold_left inject_step lines new_lines.

Definition inject_lines (lines : list text) : list text :=
  inject_from [] lines.

(** What one input line contributes to the output. *)
Definition emitted (line : text) : list text :=
  if contains anchor line then [line; insertion] else [line].

(** Number of lines that contain the anchor. *)
Definition matching (lines : list text) : nat :=
  length (filter (λ l, contains anchor l = true) lines).

(** Number of lines equal to the insertion line. *)
Definition insertions (lines : list text) : nat :=
  length (filter (λ l, l = insertion) lines).
End Injector.

(** The anchor and the insertion of the script. *)
Definition anchor_cmd : text :=
  DQ :: lit "github.com/cristianoliveira/tmux-intray/cmd" ++ [DQ].

Definition insertion_storage : text :=
  TAB :: DQ :: lit "github.com/cristianoliveira/tmux-intray/internal/storage"
    ++ [DQ; LF].

(** [new_lines] as the script computes it from [lines]. *)
Definition new_lines_of (lines : list text) : list text :=
  inject_lines anchor_cmd insertion_storage lines.

(** ** Reading the file (lines 4-5)

    [open(path, 'r')] opens in text mode with [newline=None]: universal
    newlines.  On input, ["\r\n"] and a lone ["\r"] are both translated to
    ["\n"] before the text reaches the caller. *)
Fixpoint universal_newlines (s : text) : text :=
  match s with
  | [] => []
  | c :: s' =>
    if Ascii.eqb c CR then
      match s' with
      | d :: s'' =>
        if Ascii.eqb d LF then LF :: universal_newlines s''
        else LF :: universal_newlines s'
      | [] => [LF]
      end
    else c :: universal_newlines s'
  end.

(** Splitting the translated text into lines, each keeping its ["\n"];
    the last line has none when the text does not end in one. *)
Fixpoint split_lines (s : text) : list text :=
  match s with
  | [] => []
  | c :: s' =>
    if Ascii.eqb c LF then [LF] :: split_lines s'
    else match split_lines s' with
         | [] => [[c]]
         | l :: ls => (c :: l) :: ls
         end
  end.

(** [f.readlines()] on a file holding [raw]. *)
Definition readlines (raw : text) : list text :=
  split_lines (universal_newlines raw).

(** ** Writing the file (lines 23-24)

    [open(path, 'w')] also has [newline=None]: every ["\n"] written is
    replaced by [os.linesep]. *)
Inductive platform := Posix | Windows.

Definition linesep (pf : platform) : text :=
  match pf with
  | Posix => [LF]
  | Windows => [CR; LF]
  end.

Definition write_newlines (pf : platform) (s : text) : text :=
  flat_map (λ c, if Ascii.eqb c LF then linesep pf else [c]) s.

(** ** [re.sub] on the patterns of the script (lines 16-21) *)

(** What compiling a pattern gives.  The script only uses patterns made of
    ordinary characters and backslash-escaped punctuation, which match one
    fixed string; [Malformed] is [re.error]; [Beyond] marks syntax this
    development does not interpret. *)
Inductive compiled :=
| Literal (p : text)
| Malformed
| Beyond.

(** Characters with a meaning of their own in a pattern. *)
Definition is_special (c : ascii) : bool :=
  bool_decide (c ∈ lit ".^$*+?{}[]|()").

Definition is_alnum (c : ascii) : bool :=
  let n := nat_of_ascii c in
  (48 <=? n) && (n <=? 57) || (65 <=? n) && (n <=? 90)
  || (97 <=? n) && (n <=? 122).

(** A backslash before a character that is neither a letter nor a digit
    makes that character literal; a pattern that ends in a lone backslash
    is rejected ("bad escape (end of pattern)"). *)
Fixpoint re_compile (pattern : text) : compiled :=
  match pattern with
  | [] => Literal []
  | c :: rest =>
    if Ascii.eqb c BACKSLASH then
      match rest with
      | [] => Malformed
      | d :: rest' =>
        if is_alnum d then Beyond
        else match re_compile rest' with
             | Literal p => Literal (d :: p)
             | r => r
             end
      end
    else if is_special c then Beyond
    else match re_compile rest with
         | Literal p => Literal (c :: p)
         | r => r
         end
  end.

(** A replacement template without a backslash stands for itself. *)
Definition re_template (repl : text) : option text :=
  if bool_decide (BACKSLASH ∈ repl) then None else Some repl.

(** Left-to-right scan replacing each occurrence of a non-empty [p] by [r]
    and resuming after the replaced occurrence.  Every step consumes at
    least one character, so [length s] steps are enough. *)
Fixpoint sub_from (fuel : nat) (p r s : text) : text :=
  match fuel with
  | 0 => s
  | S fuel' =>
    match s with
    | [] => []
    | c :: s' =>
      match strip_prefix p s with
      | Some rest => r ++ sub_from fuel' p r rest
      | None => c :: sub_from fuel' p r s'
      end
    end
  end.

(** Replacing every non-overlapping occurrence of the fixed string [p];
    the empty string matches once before every character and at the end. *)
Definition sub_literal (p r s : text) : text :=
  match p with
  | [] => r ++ flat_map (λ c, c :: r) s
  | _ :: _ => sub_from (length s) p r s
  end.

(** Exceptions the script can raise in this model. *)
Inductive exn :=
| FileNotFoundError
| IsADirectoryError
| UnicodeDecodeError
| PatternError.

Inductive result (A : Type) :=
| Ok (a : A)
| Raise (e : exn)
| Unmodelled.
Arguments Ok {A} a.
Arguments Raise {A} e.
Arguments Unmodelled {A}.

(** [re.sub(pattern, repl, content)] *)
Definition re_sub (pattern repl content : text) : result text :=
  match re_compile pattern with
  | Literal p =>
    match re_template repl with
    | Some r => Ok (sub_literal p r content)
    | None => Unmodelled
    end
  | Malformed => Raise PatternError
  | Beyond => Unmodelled
  end.

Definition result_bind {A B} (x : result A) (k : A → result B) : result B :=
  match x with
  | Ok a => k a
  | Raise e => Raise e
  | Unmodelled => Unmodelled
  end.

(** A rewrite rule: pattern source and replacement template. *)
Definition rule : Type := text * text.

(** [content = re.sub(pattern, repl, content)] for each rule in turn. *)
Definition apply_rules (rules : list rule) (content : text) : result text :=
  fold_left (λ acc '(pattern, repl), result_bind acc (re_sub pattern repl))
            rules (Ok content).

(** The six raw-string patterns and replacements, as written. *)
Definition pat_len8 : text := lit "len\(fields\) <= 8".
Definition rep_len8 : text := lit "len(fields) <= storage.FieldLevel".
Definition pat_idx8 : text := lit "fields\[8\]".
Definition rep_idx8 : text := lit "fields[storage.FieldLevel]".
Definition pat_len5 : text := lit "len\(fields\) <= 5".
Definition rep_len5 : text := lit "len(fields) <= storage.FieldPane".
Definition pat_idx3 : text := lit "fields\[3\]".
Definition rep_idx3 : text := lit "fields[storage.FieldSession]".
Definition pat_idx4 : text := lit "fields\[4\]".
Definition rep_idx4 : text := lit "fields[storage.FieldWindow]".
Definition pat_idx5 : text := lit "fields\[5\]".
Definition rep_idx5 : text := lit "fields[storage.FieldPane]".

Definition program_rules : list rule :=
  [ (pat_len8, rep_len8); (pat_idx8, rep_idx8); (pat_len5, rep_len5);
    (pat_idx3, rep_idx3); (pat_idx4, rep_idx4); (pat_idx5, rep_idx5) ].

(** Lines 16-21 as the script has them: six assignments to [content]. *)
Definition rewrite_content (content : text) : result text :=
  let content := Ok content in
  let content := result_bind content (re_sub pat_len8 rep_len8) in
  let content := result_bind content (re_sub pat_idx8 rep_idx8) in
  let content := result_bind content (re_sub pat_len5 rep_len5) in
  let content := result_bind content (re_sub pat_idx3 rep_idx3) in
  let content := result_bind content (re_sub pat_idx4 rep_idx4) in
  let content := result_bind content (re_sub pat_idx5 rep_idx5) in
  content.

(** The fixed strings the six patterns match, and the pure rewriting they
    perform. *)
Definition lit_rules : list rule :=
  [ (lit "len(fields) <= 8", rep_len8); (lit "fields[8]", rep_idx8);
    (lit "len(fields) <= 5", rep_len5); (lit "fields[3]", rep_idx3);
    (lit "fields[4]", rep_idx4); (lit "fields[5]", rep_idx5) ].

Definition rewrite_with (rules : list rule) (content : text) : text :=
  fold_left (λ acc '(p, r), sub_literal p r acc) rules content.

Definition rewrite_text (content : text) : text :=
  rewrite_with lit_rules content.

(** Number of occurrences of the character [c]. *)
Definition count_char (c : ascii) (s : text) : nat :=
  length (filter (λ d, d = c) s).

(** ** Decoding (lines 4-5)

    The strict UTF-8 decoder accepts exactly the well-formed sequences:
    no stray continuation byte, no overlong form, no surrogate, nothing
    above U+10FFFF. *)
Definition byte (c : ascii) : nat := nat_of_ascii c.

Definition between (lo hi : nat) (c : ascii) : bool :=
  (lo <=? byte c) && (byte c <=? hi).

Definition is_ascii (c : ascii) : bool := byte c <? 128.

(** The second byte of a three-byte sequence that starts with [b0]. *)
Definition second_of_three (b0 b1 : ascii) : bool :=
  if byte b0 =? 224 then between 160 191 b1
  else if byte b0 =? 237 then between 128 159 b1
  else between 128 191 b1.

(** The second byte of a four-byte sequence that starts with [b0]. *)
Definition second_of_four (b0 b1 : ascii) : bool :=
  if byte b0 =? 240 then between 144 191 b1
  else if byte b0 =? 244 then between 128 143 b1
  else between 128 191 b1.

Fixpoint utf8_valid (s : text) : bool :=
  match s with
  | [] => true
  | b0 :: s1 =>
    if is_ascii b0 then utf8_valid s1
    else if between 194 223 b0 then
      match s1 with
      | b1 :: s2 => between 128 191 b1 && utf8_valid s2
      | _ => false
      end
    else if between 224 239 b0 then
      match s1 with
      | b1 :: b2 :: s3 =>
        second_of_three b0 b1 && between 128 191 b2 && utf8_valid s3
      | _ => false
      end
    else if between 240 244 b0 then
      match s1 with
      | b1 :: b2 :: b3 :: s4 =>
        second_of_four b0 b1 && between 128 191 b2 && between 128 191 b3
        && utf8_valid s4
      | _ => false
      end
    else false
  end.

(** Whether the text-mode read of a file with this content succeeds. *)
Definition decodes (raw : text) : bool := utf8_valid raw.

(** ** The whole script over a file store *)

(** What a path of the store holds: a regular file with its content, or
    a directory. *)
Inductive node :=
| File (content : text)
| Directory.

Abbreviation store := (gmap string node).

(** A statement of the script: it may change the store and it returns,
    raises, or leaves the model. *)
Definition action (A : Type) : Type := store → result A * store.

Definition ret {A} (a : A) : action A := λ fs, (Ok a, fs).

Definition bind {A B} (m : action A) (k : A → action B) : action B :=
  λ fs, match m fs with
        | (Ok a, fs') => k a fs'
        | (Raise e, fs') => (Raise e, fs')
        | (Unmodelled, fs') => (Unmodelled, fs')
        end.

Definition lift {A} (r : result A) : action A := λ fs, (r, fs).

Notation "'perform' x := m 'in' k" := (bind m (λ x, k))
  (at level 10, x name, m at level 100, k at level 200).

(** [with open(path, 'r') as f: lines = f.readlines()] *)
Definition open_readlines (path : string) : action (list text) :=
  λ fs, match fs !! path with
        | Some (File raw) =>
          if decodes raw then (Ok (readlines raw), fs)
          else (Raise UnicodeDecodeError, fs)
        | Some Directory => (Raise IsADirectoryError, fs)
        | None => (Raise FileNotFoundError, fs)
        end.

(** [with open(path, 'w') as f: f.write(content)]: the file is created or
    truncated, then written. *)
Definition open_write (pf : platform) (path : string) (content : text)
  : action unit :=
  λ fs, match fs !! path with
        | Some Directory => (Raise IsADirectoryError, fs)
        | _ => (Ok tt, <[path := File (write_newlines pf content)]> fs)
        end.

Definition status_go : string := "cmd/tmux-intray/status.go".

(** The script with its rule list as a parameter. *)
Definition fix_status_with (pf : platform) (rules : list rule) : action unit :=
  perform lines := open_readlines status_go in
  let new_lines := new_lines_of lines in
  let content := join new_lines in
  perform content := lift (apply_rules rules content) in
  open_write pf status_go content.

(** The same sequence of statements over any [re.sub]: [sub pattern repl
    content] is what the call returns or raises. *)
Definition apply_rules_over (sub : text → text → text → result text)
    (rules : list rule) (content : text) : result text :=
  fold_left (λ acc '(pattern, repl), result_bind acc (sub pattern repl))
            rules (Ok content).

Definition fix_status_over (sub : text → text → text → result text)
    (pf : platform) (rules : list rule) : action unit :=
  perform lines := open_readlines status_go in
  let new_lines := new_lines_of lines in
  let content := join new_lines in
  perform content := lift (apply_rules_over sub rules content) in
  open_write pf status_go content.

(** A regular-expression engine as the script uses it: which patterns
    compile, and what [re.sub] gives. *)
Record regex_engine := {
  engine_compiles : text → bool;
  engine_sub : text → text → text → result text
}.

(** [re.sub] compiles its pattern first and raises when that fails. *)
Definition raises_on_failure (E : regex_engine) : Prop :=
  ∀ pattern repl s,
    engine_compiles E pattern = false →
    engine_sub E pattern repl s = Raise PatternError.

(** A rule on which [re.sub] returns or raises its own error. *)
Definition regular (E : regex_engine) (rl : rule) : Prop :=
  ∀ s, (∃ t, engine_sub E rl.1 rl.2 s = Ok t)
       ∨ engine_sub E rl.1 rl.2 s = Raise PatternError.

(** The engine of this development: the patterns it interprets, with a
    pattern ending in a lone backslash as the one that does not
    compile. *)
Definition fragment_engine : regex_engine :=
  {| engine_compiles := λ pattern,
       match re_compile pattern with Malformed => false | _ => true end;
     engine_sub := re_sub |}.

(** The script. *)
Definition fix_status (pf : platform) : action unit :=
  perform lines := open_readlines status_go in
  let new_lines := new_lines_of lines in
  let content := join new_lines in
  perform content := lift (rewrite_content content) in
  open_write pf status_go content.

(** The text transformation between read and write. *)
Definition transform (decoded : text) : text :=
  rewrite_text (join (new_lines_of (split_lines decoded))).

(** A character-level occurrence of [p] in [s]. *)
Definition occurs (p s : text) : Prop := ∃ u v, s = u ++ p ++ v.


(** ** Vocabulary of the statements *)

(** Every pattern is a non-empty fixed string. *)
Definition nonempty_patterns (rules : list rule) : Prop :=
  Forall (λ rl : rule, rl.1 ≠ []) rules.

(** A line that ends in a line feed. *)
Definition terminated (l : text) : Prop := ∃ l', l = l' ++ [LF].

(** The text between the quotes of the anchor. *)
Definition anchor_path : text :=
  lit "github.com/cristianoliveira/tmux-intray/cmd".

(** Exchanging the rules at positions [i] and [j]. *)
Definition swapped (i j : nat) (rules : list rule) : list rule :=
  match rules !! i, rules !! j with
  | Some a, Some b => <[i := b]> (<[j := a]> rules)
  | _, _ => rules
  end.

(** What one line of the file becomes: the rewritten line, and behind it
    the insertion line when the line held the anchor. *)
Definition line_outcome (l : text) : list text :=
  if contains anchor_cmd l then [rewrite_text l; insertion_storage]
  else [rewrite_text l].

(** Two import lines around a blank line. *)
Definition two_imports : list text :=
  [ TAB :: anchor_cmd ++ [LF]; [LF]; TAB :: anchor_cmd ++ [LF] ].

(** A pattern ending in a lone backslash, after a rule that compiles. *)
Definition broken_rules : list rule :=
  [ (pat_len8, rep_len8); (lit "fields" ++ [BACKSLASH], rep_idx8) ].

(** ** Vocabulary for following the scan of [re.sub]

    While [sub_literal p r] runs, [L] is the output written so far, [M]
    the input read since the last match, [s] the input still to read and
    [fl] tells whether there was a match. *)

(** No position of [M] starts a match. *)
Definition unmatched (p M s : text) : Prop :=
  ∀ M1 M2, M = M1 ++ M2 → M2 ≠ [] → strip_prefix p (M2 ++ s) = None.

(** Where the scan of the input [t] stands. *)
Definition scan_state (p q t : text) (fl : bool) (M s : text) : Prop :=
  (q = p → unmatched p M s)
  ∧ ∃ pre, t = pre ++ (if fl then p else []) ++ M ++ s.

(** Every beginning of [q] that ends the output is a piece of input read
    since the last match, or starts inside the last replacement and goes
    on with all the input read since. *)
Definition dominated (r q L M : text) (fl : bool) : Prop :=
  ∀ x, x ≠ [] → x `suffix_of` L → x `prefix_of` q →
       x `suffix_of` M
       ∨ (fl = true ∧ ∃ o, o ≠ [] ∧ o `suffix_of` r ∧ x = o ++ M).

(** [q] can begin outside [r] and end inside it. *)
Definition ends_inside (q r : text) : Prop :=
  Exists (λ k, drop k q `prefix_of` r) (seq 1 (length q - 1)).

(** What is left of [q] when it begins with an end of [r]. *)
Definition overlap_tails (r q : text) : list text :=
  omap (λ k, if decide (take k q `suffix_of` r) then Some (drop k q) else None)
       (seq 1 (length q - 1)).

(** Replacing by [rl] cannot bring about an occurrence of [q]. *)
Definition rule_keeps (rl : rule) (q : text) : Prop :=
  q ≠ [] ∧ rl.1 ≠ [] ∧ contains q rl.2 = false ∧ contains rl.2 q = false
  ∧ ¬ ends_inside q rl.2 ∧ overlap_tails rl.2 q = [].

#[global] Instance rule_keeps_dec (rl : rule) (q : text) :
  Decision (rule_keeps rl q).
Proof. unfold rule_keeps, ends_inside. apply _. Defined.

(** Each rule keeps its own pattern and those of the rules before it
    away. *)
Fixpoint keeps_all (qs : list text) (rules : list rule) : bool :=
  match rules with
  | [] => true
  | rl :: rest =>
    bool_decide (Forall (rule_keeps rl) (rl.1 :: qs))
    && keeps_all (rl.1 :: qs) rest
  end.

(** One of the two texts begins the other. *)
Definition compatible (a b : text) : Prop :=
  a `prefix_of` b ∨ b `prefix_of` a.

(** A match of [p] that begins before [w] can reach into [w]. *)
Definition enters (p w : text) : Prop :=
  Exists (λ k, compatible (drop k p) w) (seq 1 (length p - 1)).

(** A match of [p] can begin inside [w]. *)
Definition starts_inside (p w : text) : Prop :=
  Exists (λ k, compatible p (drop k w)) (seq 0 (length w)).

(** No match of a rule of the list can touch an occurrence of [q]. *)
Definition untouched_by (rules : list rule) (q : text) : Prop :=
  Forall (λ rl : rule, rl.1 ≠ [] ∧ ¬ enters rl.1 q ∧ ¬ starts_inside rl.1 q)
         rules.

(** The one text on which a second pass finds work: the first pattern
    followed by what makes its replacement's last letter a new match. *)
Definition relapse : text := lit "len(fields) <= 8en(fields) <= 8".

(** * Properties *)

(** ** The injector *)

Section InjectorFacts.
Variable anchor insertion : text.

Lemma inject_from_emitted (lines acc : list text) :
  inject_from anchor insertion acc lines
  = acc ++ flat_map (emitted anchor insertion) lines.
Proof.
  unfold inject_from. revert acc.
  induction lines as [|l lines IH]; intros acc; simpl.
  - by rewrite app_nil_r.
  - rewrite IH.
    unfold inject_step, emitted.
    destruct (contains anchor l); by rewrite <- !app_assoc.
Qed.

Lemma inject_lines_emitted (lines : list text) :
  inject_lines anchor insertion lines
  = flat_map (emitted anchor insertion) lines.
Proof. apply inject_from_emitted. Qed.

Lemma matching_cons (l : text) (lines : list text) :
  matching anchor (l :: lines)
  = (if contains anchor l then 1 else 0) + matching anchor lines.
Proof.
  unfold matching. rewrite filter_cons.
  destruct (contains anchor l); simpl; [|done].
  - destruct (decide (true = true)); [done|congruence].
Qed.

Lemma insertions_cons (l : text) (lines : list text) :
  insertions insertion (l :: lines)
  = (if decide (l = insertion) then 1 else 0) + insertions insertion lines.
Proof.
  unfold insertions. rewrite filter_cons. by destruct (decide (l = insertion)).
Qed.

Lemma inject_lines_length (lines : list text) :
  length (inject_lines anchor insertion lines)
  = length lines + matching anchor lines.
Proof.
  rewrite inject_lines_emitted.
  induction lines as [|l lines IH]; [done|].
  rewrite matching_cons. simpl. rewrite length_app, IH.
  unfold emitted. destruct (contains anchor l); simpl; lia.
Qed.

(** The insertion line does not contain the anchor: the inserted lines
    are counted apart from the matching ones. *)
Hypothesis insertion_no_anchor : contains anchor insertion = false.

Lemma inject_lines_insertions (lines : list text) :
  insertions insertion (inject_lines anchor insertion lines)
  = insertions insertion lines + matching anchor lines.
Proof.
  rewrite inject_lines_emitted.
  induction lines as [|l lines IH]; [done|].
  rewrite matching_cons, insertions_cons. simpl.
  unfold emitted at 1. destruct (contains anchor l) eqn:Hl; simpl.
  - rewrite !insertions_cons, IH.
    destruct (decide (l = insertion)) as [->|]; [congruence|].
    destruct (decide (insertion = insertion)); [lia|done].
  - rewrite insertions_cons, IH. lia.
Qed.

Lemma inject_lines_no_match (lines : list text) :
  matching anchor lines = 0 → inject_lines anchor insertion lines = lines.
Proof.
  rewrite inject_lines_emitted.
  induction lines as [|l lines IH]; [done|].
  rewrite matching_cons. cbn [flat_map]. unfold emitted at 1.
  destruct (contains anchor l); simpl; [lia|].
  intros H. f_equal. by apply IH.
Qed.

(** Where the [i]-th input line lands, and what follows it. *)
Lemma inject_lines_lookup (lines : list text) (i : nat) (line : text) :
  lines !! i = Some line →
  let j := i + matching anchor (take i lines) in
  let out := inject_lines anchor insertion lines in
  out !! j = Some line
  ∧ (contains anchor line = true → out !! S j = Some insertion)
  ∧ (contains anchor line = false →
     out !! S j = lines !! S i).
Proof.
  simpl. rewrite inject_lines_emitted.
  revert i. induction lines as [|l lines IH]; intros i Hi; [done|].
  destruct i as [|i]; simpl in *.
  - injection Hi as ->. unfold matching, emitted at 1 3 5.
    simpl. destruct (contains anchor line) eqn:Hl; simpl.
    + split_and!; [done|done|congruence].
    + split_and!; [done|congruence|]. intros _.
      destruct lines as [|l' lines]; simpl; [done|].
      unfold emitted. by destruct (contains anchor l').
  - specialize (IH i Hi). rewrite matching_cons.
    unfold emitted at 1 3 5.
    destruct (contains anchor l); simpl.
    + rewrite Nat.add_succ_r. exact IH.
    + exact IH.
Qed.
End InjectorFacts.

Lemma insertion_storage_no_anchor :
  contains anchor_cmd insertion_storage = false.
Proof. reflexivity. Qed.

(** ** Prefixes and occurrences *)

Lemma ascii_eqb_true (a b : ascii) : Ascii.eqb a b = true ↔ a = b.
Proof. apply Ascii.eqb_eq. Qed.

Lemma ascii_eqb_false (a b : ascii) : Ascii.eqb a b = false ↔ a ≠ b.
Proof. apply Ascii.eqb_neq. Qed.

Lemma strip_prefix_Some (p s rest : text) :
  strip_prefix p s = Some rest ↔ s = p ++ rest.
Proof.
  revert s. induction p as [|a p IH]; intros s; simpl.
  - split; congruence.
  - destruct s as [|b s]; [split; congruence|].
    destruct (Ascii.eqb a b) eqn:E.
    + apply ascii_eqb_true in E as ->. rewrite IH. split; congruence.
    + apply ascii_eqb_false in E. split; congruence.
Qed.

Lemma strip_prefix_app (p rest : text) : strip_prefix p (p ++ rest) = Some rest.
Proof. by apply strip_prefix_Some. Qed.

Lemma strip_prefix_None (p s : text) :
  strip_prefix p s = None ↔ ∀ rest, s ≠ p ++ rest.
Proof.
  split.
  - intros H rest ->. by rewrite strip_prefix_app in H.
  - intros H. destruct (strip_prefix p s) as [rest|] eqn:E; [|done].
    apply strip_prefix_Some in E. by destruct (H rest).
Qed.

Lemma starts_with_strip (p s : text) :
  starts_with p s = bool_decide (is_Some (strip_prefix p s)).
Proof.
  revert s. induction p as [|a p IH]; intros s; simpl; [done|].
  destruct s as [|b s]; [done|].
  destruct (Ascii.eqb a b); simpl; [apply IH|done].
Qed.

Lemma starts_with_true (p s : text) :
  starts_with p s = true ↔ ∃ rest, s = p ++ rest.
Proof.
  rewrite starts_with_strip.
  destruct (strip_prefix p s) as [rest|] eqn:E.
  - apply strip_prefix_Some in E. split; [eauto|done].
  - split; [done|]. intros [rest ->]. by rewrite strip_prefix_app in E.
Qed.

Lemma contains_occurs (p s : text) : contains p s = true ↔ occurs p s.
Proof.
  unfold occurs. induction s as [|c s IH]; simpl.
  - rewrite starts_with_true. split.
    + intros [rest H]. exists [], rest. done.
    + intros (u & v & H). symmetry in H.
      apply app_eq_nil in H as [-> H]. apply app_eq_nil in H as [-> ->].
      by exists [].
  - rewrite orb_true_iff, starts_with_true, IH. split.
    + intros [[rest ->]|(u & v & ->)]; [by exists [], rest|].
      by exists (c :: u), v.
    + intros (u & v & H). destruct u as [|d u]; simpl in H.
      * left. by exists v.
      * injection H as -> ->. right. by exists u, v.
Qed.

Lemma contains_false (p s : text) : contains p s = false ↔ ¬ occurs p s.
Proof. rewrite <- contains_occurs. by destruct (contains p s). Qed.

Lemma occurs_app_l (p s t : text) : occurs p s → occurs p (s ++ t).
Proof.
  intros (u & v & ->). exists u, (v ++ t). by rewrite <- !app_assoc.
Qed.

Lemma occurs_app_r (p s t : text) : occurs p t → occurs p (s ++ t).
Proof.
  intros (u & v & ->). exists (s ++ u), v. by rewrite <- !app_assoc.
Qed.

Lemma occurs_cons (p s : text) (c : ascii) : occurs p s → occurs p (c :: s).
Proof. apply (occurs_app_r p [c] s). Qed.

(** ** The scan of [re.sub] *)

Section Substitution.
Variable p0 : ascii.
Variable p' : text.
Variable r : text.
Local Abbreviation p := (p0 :: p').

(** More fuel than characters changes nothing. *)
Lemma sub_from_enough (fuel : nat) (s : text) :
  length s ≤ fuel → sub_from fuel p r s = sub_from (length s) p r s.
Proof.
  revert s. induction (lt_wf fuel) as [fuel _ IH]. intros s Hlen.
  destruct s as [|c s]; [by destruct fuel|].
  destruct fuel as [|fuel]; [simpl in Hlen; lia|].
  cbn [sub_from length].
  destruct (strip_prefix p (c :: s)) as [rest|] eqn:E.
  - apply strip_prefix_Some in E.
    assert (length rest ≤ length s) as Hrest.
    { apply (f_equal length) in E.
      rewrite length_app in E. simpl in E. lia. }
    simpl in Hlen.
    rewrite (IH fuel) by lia. rewrite (IH (length s)) by lia. done.
  - simpl in Hlen. f_equal. rewrite (IH fuel) by lia. done.
Qed.

Lemma sub_literal_nil : sub_literal p r [] = [].
Proof. done. Qed.

(** A match at the head: emit [r], resume after the match. *)
Lemma sub_literal_match (rest : text) :
  sub_literal p r (p ++ rest) = r ++ sub_literal p r rest.
Proof.
  unfold sub_literal. cbn [app length sub_from].
  replace (p0 :: p' ++ rest) with (p ++ rest) by done.
  rewrite strip_prefix_app. f_equal.
  apply sub_from_enough. rewrite length_app. lia.
Qed.

(** No match at the head: keep the character, move on by one. *)
Lemma sub_literal_skip (c : ascii) (s : text) :
  strip_prefix p (c :: s) = None →
  sub_literal p r (c :: s) = c :: sub_literal p r s.
Proof.
  intros E. unfold sub_literal. cbn [length sub_from].
  by rewrite E.
Qed.

(** Induction along the scan. *)
Lemma sub_literal_ind (P : text → Prop) :
  P [] →
  (∀ rest, P rest → P (p ++ rest)) →
  (∀ c s, strip_prefix p (c :: s) = None → P s → P (c :: s)) →
  ∀ s, P s.
Proof.
  intros Hnil Hmatch Hskip s.
  remember (length s) as n eqn:Hn. revert s Hn.
  induction (lt_wf n) as [n _ IH]. intros s ->.
  destruct s as [|c s]; [done|].
  destruct (strip_prefix p (c :: s)) as [rest|] eqn:E.
  - apply strip_prefix_Some in E. rewrite E. apply Hmatch.
    apply (IH (length rest)); [|done].
    apply (f_equal length) in E. rewrite length_app in E.
    simpl in *. lia.
  - apply Hskip; [done|]. apply (IH (length s)); [simpl; lia|done].
Qed.
End Substitution.

Section SubstitutionFacts.
Variable p0 : ascii.
Variable p' : text.
Variable r : text.
Local Abbreviation p := (p0 :: p').

Lemma strip_prefix_longer (s t : text) :
  strip_prefix p (s ++ t) = None → strip_prefix p s = None.
Proof.
  rewrite !strip_prefix_None. intros H rest ->.
  apply (H (rest ++ t)). by rewrite app_assoc.
Qed.

Lemma occurs_skip (c : ascii) (s : text) :
  strip_prefix p (c :: s) = None → occurs p (c :: s) → occurs p s.
Proof.
  intros E (u & v & H). destruct u as [|d u]; simpl in H.
  - rewrite H in E.
    replace (p0 :: p' ++ v) with (p ++ v) in E by done.
    by rewrite strip_prefix_app in E.
  - injection H as -> ->. by exists u, v.
Qed.

(** Text without an occurrence is left as it is. *)
Lemma sub_literal_absent (s : text) :
  ¬ occurs p s → sub_literal p r s = s.
Proof.
  induction s as [|c s IH]; intros Hno; [done|].
  rewrite sub_literal_skip.
  - f_equal. apply IH. intros H. by apply Hno, occurs_cons.
  - apply strip_prefix_None. intros rest H. apply Hno.
    exists [], rest. done.
Qed.

(** The leftmost occurrence is replaced and the scan resumes behind it. *)
Lemma sub_literal_leftmost (u v : text) :
  ¬ occurs p (u ++ removelast p) →
  sub_literal p r (u ++ p ++ v) = u ++ r ++ sub_literal p r v.
Proof.
  induction u as [|c u IH]; intros Hno.
  - apply sub_literal_match.
  - cbn [app]. rewrite sub_literal_skip.
    + f_equal. apply IH. intros H. by apply Hno, (occurs_cons _ _ c).
    + apply strip_prefix_None. intros rest H. apply Hno.
      assert (p ≠ []) as Hp by done.
      pose proof (app_removelast_last p0 Hp) as Hlast.
      set (X := (c :: u) ++ removelast p).
      assert (X ++ [List.last p p0] ++ v = p ++ rest) as H'.
      { unfold X. rewrite <- app_assoc.
        rewrite (app_assoc (removelast p)), <- Hlast. exact H. }
      assert (length p ≤ length X) as HX.
      { unfold X. rewrite length_app.
        apply (f_equal length) in Hlast. rewrite length_app in Hlast.
        simpl in *. lia. }
      apply (f_equal (take (length p))) in H'.
      rewrite take_app_le in H' by done.
      rewrite take_app_length in H'.
      exists [], (drop (length p) X).
      etrans; [symmetry; apply (take_drop (length p))|].
      by rewrite H'.
Qed.

(** A character that is not in the pattern cuts the scan in two. *)
Lemma sub_literal_barrier (c : ascii) (u v : text) :
  c ∉ p →
  sub_literal p r (u ++ c :: v)
  = sub_literal p r u ++ c :: sub_literal p r v.
Proof.
  intros Hc. revert u. apply (sub_literal_ind p0 p').
  - cbn [app]. rewrite sub_literal_skip; [done|].
    apply strip_prefix_None. intros rest H. apply Hc.
    injection H as <- _. apply list_elem_of_here.
  - intros rest IH. rewrite <- app_assoc.
    rewrite !sub_literal_match, IH. by rewrite <- app_assoc.
  - intros d s E IH. cbn [app].
    rewrite (sub_literal_skip _ _ _ d s) by done.
    rewrite sub_literal_skip; [by rewrite IH|].
    apply strip_prefix_None. intros rest H.
    change (d :: s ++ c :: v) with ((d :: s) ++ c :: v) in H.
    symmetry in H. apply app_eq_app in H as [l [[Hp Hl]|[Hs Hl]]].
    + destruct l as [|c' l].
      * rewrite app_nil_r in Hp. rewrite <- Hp in E.
        pose proof (strip_prefix_app p []) as E'.
        rewrite app_nil_r in E'. congruence.
      * injection Hl as <- _. apply Hc. rewrite Hp.
        apply elem_of_app. right. apply list_elem_of_here.
    + rewrite Hs in E. by rewrite strip_prefix_app in E.
Qed.

Lemma sub_literal_elem_of (x : ascii) (s : text) :
  x ∈ sub_literal p r s → x ∈ s ∨ x ∈ r.
Proof.
  induction s as [|rest IH|c s E IH] using (sub_literal_ind p0 p').
  - by left.
  - rewrite sub_literal_match.
    rewrite !elem_of_app. intros [H|H]; [by right|].
    destruct (IH H); auto.
  - rewrite sub_literal_skip by done.
    rewrite !elem_of_cons. intros [H|H]; [auto|].
    destruct (IH H); auto.
Qed.

Lemma filter_absent (c : ascii) (l : text) :
  c ∉ l → filter (λ d, d = c) l = [].
Proof.
  induction l as [|d l IH]; [done|].
  rewrite filter_cons, not_elem_of_cons. intros [Hd Hl].
  destruct (decide (d = c)); [congruence|auto].
Qed.

(** Characters foreign to both pattern and replacement keep their
    number. *)
Lemma sub_literal_count (c : ascii) (s : text) :
  c ∉ p → c ∉ r →
  count_char c (sub_literal p r s) = count_char c s.
Proof.
  intros Hp Hr. unfold count_char.
  induction s as [|rest IH|d s E IH] using (sub_literal_ind p0 p').
  - done.
  - rewrite sub_literal_match.
    rewrite !filter_app, !length_app, IH.
    by rewrite (filter_absent c r), (filter_absent c p).
  - rewrite sub_literal_skip by done.
    rewrite !filter_cons.
    destruct (decide (d = c)); [cbn [length]; f_equal|]; exact IH.
Qed.

(** A replacement at least as long as the pattern never shortens. *)
Lemma sub_literal_length (s : text) :
  length p ≤ length r → length s ≤ length (sub_literal p r s).
Proof.
  intros Hpr.
  induction s as [|rest IH|c s E IH] using (sub_literal_ind p0 p').
  - done.
  - rewrite sub_literal_match, !length_app. lia.
  - rewrite sub_literal_skip by done. cbn [length]. lia.
Qed.

(** A strictly longer replacement lengthens exactly when it fires. *)
Lemma sub_literal_longer (s : text) :
  length p < length r → occurs p s →
  length s < length (sub_literal p r s).
Proof.
  intros Hpr.
  induction s as [|rest IH|c s E IH] using (sub_literal_ind p0 p').
  - intros (u & v & H). symmetry in H.
    apply app_eq_nil in H as [_ H]. by apply app_eq_nil in H as [H _].
  - intros _. rewrite sub_literal_match, !length_app.
    pose proof (sub_literal_length rest). lia.
  - intros Hocc. rewrite sub_literal_skip by done. cbn [length].
    apply occurs_skip in Hocc; [|done]. specialize (IH Hocc). lia.
Qed.
End SubstitutionFacts.

(** The same facts for any non-empty pattern. *)
Lemma sub_absent (p r s : text) :
  p ≠ [] → ¬ occurs p s → sub_literal p r s = s.
Proof. destruct p; [done|]. intros _. apply sub_literal_absent. Qed.

Lemma sub_leftmost (p r u v : text) :
  p ≠ [] → ¬ occurs p (u ++ removelast p) →
  sub_literal p r (u ++ p ++ v) = u ++ r ++ sub_literal p r v.
Proof. destruct p; [done|]. intros _. apply sub_literal_leftmost. Qed.

Lemma sub_barrier (p r : text) (c : ascii) (u v : text) :
  p ≠ [] → c ∉ p →
  sub_literal p r (u ++ c :: v) = sub_literal p r u ++ c :: sub_literal p r v.
Proof. destruct p; [done|]. intros _. apply sub_literal_barrier. Qed.

Lemma sub_elem_of (p r s : text) (x : ascii) :
  p ≠ [] → x ∈ sub_literal p r s → x ∈ s ∨ x ∈ r.
Proof. destruct p; [done|]. intros _. apply sub_literal_elem_of. Qed.

Lemma sub_count (p r s : text) (c : ascii) :
  p ≠ [] → c ∉ p → c ∉ r →
  count_char c (sub_literal p r s) = count_char c s.
Proof. destruct p; [done|]. intros _. apply sub_literal_count. Qed.

Lemma sub_length (p r s : text) :
  p ≠ [] → length p ≤ length r → length s ≤ length (sub_literal p r s).
Proof. destruct p; [done|]. intros _. apply sub_literal_length. Qed.

Lemma sub_longer (p r s : text) :
  p ≠ [] → length p < length r → occurs p s →
  length s < length (sub_literal p r s).
Proof. destruct p; [done|]. intros _. apply sub_literal_longer. Qed.

(** ** A list of rules applied in order *)

Lemma rewrite_with_cons (p r : text) (rules : list rule) (s : text) :
  rewrite_with ((p, r) :: rules) s = rewrite_with rules (sub_literal p r s).
Proof. done. Qed.

Lemma rewrite_with_app (rules1 rules2 : list rule) (s : text) :
  rewrite_with (rules1 ++ rules2) s
  = rewrite_with rules2 (rewrite_with rules1 s).
Proof. apply fold_left_app. Qed.

Lemma rewrite_with_absent (rules : list rule) (s : text) :
  nonempty_patterns rules →
  Forall (λ rl : rule, ¬ occurs rl.1 s) rules → rewrite_with rules s = s.
Proof.
  induction 1 as [|[p r] rs Hp _ IH]; [done|].
  rewrite Forall_cons. intros [Hno Hrs]. cbn [fst snd] in *.
  rewrite rewrite_with_cons, sub_absent by done. by apply IH.
Qed.

Lemma rewrite_with_barrier (rules : list rule) (c : ascii) (u v : text) :
  nonempty_patterns rules →
  Forall (λ rl : rule, c ∉ rl.1) rules →
  rewrite_with rules (u ++ c :: v)
  = rewrite_with rules u ++ c :: rewrite_with rules v.
Proof.
  intros Hne. revert u v.
  induction Hne as [|[p r] rs Hp _ IH]; [done|].
  intros u v. rewrite Forall_cons. intros [Hc Hrs]. cbn [fst snd] in *.
  rewrite !rewrite_with_cons, sub_barrier by done. by apply IH.
Qed.

Lemma rewrite_with_elem_of (rules : list rule) (x : ascii) (s : text) :
  nonempty_patterns rules →
  x ∈ rewrite_with rules s → x ∈ s ∨ Exists (λ rl : rule, x ∈ rl.2) rules.
Proof.
  intros Hne. revert s.
  induction Hne as [|[p r] rs Hp _ IH]; [by left|].
  intros s. rewrite rewrite_with_cons. intros H.
  destruct (IH _ H) as [Hs|Hrs]; [|right; by apply Exists_cons_tl].
  apply sub_elem_of in Hs as [?|?]; [by left| |done].
  right. by apply Exists_cons_hd.
Qed.

Lemma rewrite_with_count (rules : list rule) (c : ascii) (s : text) :
  nonempty_patterns rules →
  Forall (λ rl : rule, (c ∉ fst rl) ∧ (c ∉ snd rl)) rules →
  count_char c (rewrite_with rules s) = count_char c s.
Proof.
  intros Hne. revert s.
  induction Hne as [|[p r] rs Hp _ IH]; [done|].
  intros s. rewrite Forall_cons. intros [[Hc1 Hc2] Hrs]. cbn [fst snd] in *.
  rewrite rewrite_with_cons, IH by done. by apply sub_count.
Qed.

Lemma rewrite_with_length (rules : list rule) (s : text) :
  nonempty_patterns rules →
  Forall (λ rl : rule, length rl.1 ≤ length rl.2) rules →
  length s ≤ length (rewrite_with rules s).
Proof.
  intros Hne. revert s.
  induction Hne as [|[p r] rs Hp _ IH]; [done|].
  intros s. rewrite Forall_cons. intros [Hpr Hrs]. cbn [fst snd] in *.
  rewrite rewrite_with_cons.
  pose proof (sub_length p r s Hp Hpr).
  pose proof (IH (sub_literal p r s) Hrs). lia.
Qed.

(** With replacements longer than their patterns, the rules leave a text
    alone exactly when none of the patterns occurs in it. *)
Lemma rewrite_with_fixed (rules : list rule) (s : text) :
  nonempty_patterns rules →
  Forall (λ rl : rule, length rl.1 < length rl.2) rules →
  rewrite_with rules s = s ↔ Forall (λ rl : rule, ¬ occurs rl.1 s) rules.
Proof.
  intros Hne Hlen. split; [|by apply rewrite_with_absent].
  revert s Hlen.
  induction Hne as [|[p r] rs Hp Hne IH]; [done|].
  intros s. rewrite Forall_cons. intros [Hpr Hrs] Hfix. cbn [fst snd] in *.
  rewrite rewrite_with_cons in Hfix.
  assert (¬ occurs p s) as Hno.
  { intros Hocc. pose proof (sub_longer p r s Hp Hpr Hocc) as Hlt.
    assert (Forall (λ rl : rule, length rl.1 ≤ length rl.2) rs) as Hle.
    { eapply Forall_impl; [exact Hrs|]. intros rl. cbn beta. lia. }
    pose proof (rewrite_with_length rs (sub_literal p r s) Hne Hle) as Hge.
    rewrite Hfix in Hge. lia. }
  rewrite sub_absent in Hfix by done.
  apply Forall_cons. split; [done|]. by apply IH.
Qed.

(** ** Lines *)

Lemma join_split_lines (s : text) : join (split_lines s) = s.
Proof.
  unfold join. induction s as [|c s IH]; [done|].
  cbn [split_lines]. destruct (Ascii.eqb c LF) eqn:E.
  - apply ascii_eqb_true in E as ->. simpl. by rewrite IH.
  - destruct (split_lines s) as [|l ls]; simpl in *; by rewrite <- IH.
Qed.

(** A text without a line feed is one line. *)
Lemma split_lines_single (u : text) :
  LF ∉ u → u ≠ [] → split_lines u = [u].
Proof.
  induction u as [|c u IH]; [done|].
  rewrite not_elem_of_cons. intros [Hc Hu] _. cbn [split_lines].
  destruct (Ascii.eqb c LF) eqn:E; [by apply ascii_eqb_true in E|].
  destruct u as [|d u]; [done|]. by rewrite IH.
Qed.

(** The first line feed ends the first line. *)
Lemma split_lines_first (u v : text) :
  LF ∉ u → split_lines (u ++ LF :: v) = (u ++ [LF]) :: split_lines v.
Proof.
  induction u as [|c u IH].
  - intros _. cbn [app split_lines]. by rewrite (proj2 (ascii_eqb_true LF LF)).
  - rewrite not_elem_of_cons. intros [Hc Hu]. cbn [app split_lines].
    destruct (Ascii.eqb c LF) eqn:E; [by apply ascii_eqb_true in E|].
    by rewrite IH.
Qed.

(** Induction line by line. *)
Lemma lines_ind (P : text → Prop) :
  P [] →
  (∀ u, LF ∉ u → u ≠ [] → P u) →
  (∀ u v, LF ∉ u → P v → P (u ++ LF :: v)) →
  ∀ s, P s.
Proof.
  intros Hnil Hlast Hline s.
  remember (length s) as n eqn:Hn. revert s Hn.
  induction (lt_wf n) as [n _ IH]. intros s ->.
  destruct (decide (LF ∈ s)) as [Hin|Hout].
  - apply list_elem_of_split_l in Hin as (u & v & -> & Hu).
    apply Hline; [done|]. apply (IH (length v)); [|done].
    rewrite length_app. simpl. lia.
  - destruct s as [|c s]; [done|]. by apply Hlast.
Qed.

Lemma occurs_nil (s : text) : occurs [] s.
Proof. by exists [], s. Qed.

(** An occurrence cannot straddle a character foreign to the pattern. *)
Lemma occurs_barrier (a u v : text) (c : ascii) :
  c ∉ a → occurs a (u ++ c :: v) → occurs a u ∨ occurs a v.
Proof.
  intros Hc (x & y & H).
  apply app_eq_app in H as [l [[Hu Hy]|[Hx Hv]]].
  - symmetry in Hy. apply app_eq_app in Hy as [l' [[Hl Hy]|[Ha Hy]]].
    + left. exists x, l'. by rewrite Hu, Hl.
    + destruct l' as [|c' l'].
      * left. exists x, []. rewrite Hu, Ha. by rewrite !app_nil_r.
      * injection Hy as <- _. destruct Hc. rewrite Ha.
        apply elem_of_app. right. apply list_elem_of_here.
  - destruct l as [|c' l].
    + simpl in Hv. destruct a as [|a0 a]; [left; apply occurs_nil|].
      injection Hv as <- _. destruct Hc. apply list_elem_of_here.
    + injection Hv as _ ->. right. by exists l, y.
Qed.

(** An occurrence of a text without line feed lies inside one line. *)
Lemma occurs_in_line (a s : text) :
  LF ∉ a → a ≠ [] → occurs a s →
  ∃ l, l ∈ split_lines s ∧ occurs a l.
Proof.
  intros Ha Hne. induction s as [|u Hu Hu'|u v Hu IH] using lines_ind.
  - intros (x & y & H). symmetry in H.
    apply app_eq_nil in H as [_ H]. by apply app_eq_nil in H as [? _].
  - intros Hocc. exists u. rewrite split_lines_single by done.
    split; [apply list_elem_of_here|done].
  - intros Hocc. rewrite split_lines_first by done.
    apply occurs_barrier in Hocc as [Hocc|Hocc]; [| |done].
    + exists (u ++ [LF]). split; [apply list_elem_of_here|].
      by apply occurs_app_l.
    + destruct (IH Hocc) as (l & Hl & Hal). exists l.
      split; [by apply list_elem_of_further|done].
Qed.

Lemma occurs_join (a l : text) (ls : list text) :
  l ∈ ls → occurs a l → occurs a (join ls).
Proof.
  intros Hl Hocc. apply list_elem_of_split in Hl as (l1 & l2 & ->).
  unfold join. rewrite concat_app. apply occurs_app_r.
  simpl. by apply occurs_app_l.
Qed.

Lemma matching_positive (anchor : text) (lines : list text) (l : text) :
  l ∈ lines → contains anchor l = true → 0 < matching anchor lines.
Proof.
  intros Hl Hc. unfold matching.
  assert (l ∈ filter (λ l, contains anchor l = true) lines) as Hin.
  { by apply list_elem_of_filter. }
  destruct (filter _ lines); [by apply elem_of_nil in Hin|simpl; lia].
Qed.

Lemma matching_zero (anchor : text) (lines : list text) :
  matching anchor lines = 0 ↔ Forall (λ l, contains anchor l = false) lines.
Proof.
  induction lines as [|l lines IH]; [done|].
  rewrite matching_cons, Forall_cons, <- IH.
  destruct (contains anchor l); split; try lia; intros [? ?]; done.
Qed.

(** ** The rules of the script *)

Lemma lit_rules_nonempty : nonempty_patterns lit_rules.
Proof. by repeat constructor. Qed.

Lemma lit_rules_longer :
  Forall (λ rl : rule, length rl.1 < length rl.2) lit_rules.
Proof. compute_done. Qed.

(** Line feed, carriage return and double quote are foreign to every
    pattern and replacement. *)
Lemma lit_rules_foreign (c : ascii) :
  c ∈ [LF; CR; DQ] →
  Forall (λ rl : rule, (c ∉ fst rl) ∧ (c ∉ snd rl)) lit_rules.
Proof.
  rewrite !elem_of_cons, elem_of_nil.
  intros [->|[->|[->|[]]]]; compute_done.
Qed.

Lemma lit_rules_foreign_patterns (c : ascii) :
  c ∈ [LF; CR; DQ] → Forall (λ rl : rule, c ∉ rl.1) lit_rules.
Proof.
  intros Hc. eapply Forall_impl; [by apply lit_rules_foreign|].
  by intros rl [? _].
Qed.

(** Every pattern of the script compiles, to the fixed string it spells
    with its escapes removed. *)
Lemma program_rules_compile :
  Forall2 (λ (src : rule) (rl : rule),
             re_compile src.1 = Literal rl.1
             ∧ re_template src.2 = Some rl.2)
          program_rules lit_rules.
Proof. repeat constructor. Qed.

Lemma apply_rules_cons (pattern repl : text) (rules : list rule) (s : text) :
  apply_rules ((pattern, repl) :: rules) s
  = result_bind (re_sub pattern repl s) (apply_rules rules).
Proof.
  unfold apply_rules. cbn [fold_left result_bind].
  destruct (re_sub pattern repl s) as [t| |]; [done| |].
  - induction rules as [|[q t] rules IH]; [done|]. apply IH.
  - induction rules as [|[q t] rules IH]; [done|]. apply IH.
Qed.

(** Rules that compile rewrite like their fixed strings. *)
Lemma apply_rules_literal (srcs lits : list rule) (s : text) :
  Forall2 (λ (src : rule) (rl : rule),
             re_compile src.1 = Literal rl.1
             ∧ re_template src.2 = Some rl.2) srcs lits →
  apply_rules srcs s = Ok (rewrite_with lits s).
Proof.
  intros H. revert s.
  induction H as [|[pat repl] [p r] srcs lits [Hp Hr] _ IH]; [done|].
  intros s. cbn [fst snd] in *.
  rewrite apply_rules_cons, rewrite_with_cons. unfold re_sub.
  rewrite Hp, Hr. apply IH.
Qed.

Lemma apply_program_rules (content : text) :
  apply_rules program_rules content = Ok (rewrite_text content).
Proof. apply apply_rules_literal, program_rules_compile. Qed.

(** The six assignments are the fold over the rule list. *)
Lemma rewrite_content_fold (content : text) :
  rewrite_content content = apply_rules program_rules content.
Proof. reflexivity. Qed.

Lemma rewrite_content_ok (content : text) :
  rewrite_content content = Ok (rewrite_text content).
Proof. rewrite rewrite_content_fold. apply apply_program_rules. Qed.

Lemma fix_status_with_program (pf : platform) :
  fix_status pf = fix_status_with pf program_rules.
Proof. reflexivity. Qed.

(** ** Running the script *)

Lemma fix_status_with_missing (pf : platform) (rules : list rule) (fs : store) :
  fs !! status_go = None →
  fix_status_with pf rules fs = (Raise FileNotFoundError, fs).
Proof.
  intros H. unfold fix_status_with, bind, open_readlines. by rewrite H.
Qed.

Lemma fix_status_with_over (pf : platform) (rules : list rule) :
  fix_status_with pf rules = fix_status_over re_sub pf rules.
Proof. reflexivity. Qed.

Lemma fix_status_over_missing (sub : text → text → text → result text)
    (pf : platform) (rules : list rule) (fs : store) :
  fs !! status_go = None →
  fix_status_over sub pf rules fs = (Raise FileNotFoundError, fs).
Proof.
  intros H. unfold fix_status_over, bind, open_readlines. by rewrite H.
Qed.

Lemma fix_status_over_directory (sub : text → text → text → result text)
    (pf : platform) (rules : list rule) (fs : store) :
  fs !! status_go = Some Directory →
  fix_status_over sub pf rules fs = (Raise IsADirectoryError, fs).
Proof.
  intros H. unfold fix_status_over, bind, open_readlines. by rewrite H.
Qed.

Lemma fix_status_over_undecodable (sub : text → text → text → result text)
    (pf : platform) (rules : list rule) (fs : store) (raw : text) :
  fs !! status_go = Some (File raw) → decodes raw = false →
  fix_status_over sub pf rules fs = (Raise UnicodeDecodeError, fs).
Proof.
  intros H Hdec. unfold fix_status_over, bind, open_readlines.
  by rewrite H, Hdec.
Qed.

Lemma fix_status_over_run (sub : text → text → text → result text)
    (pf : platform) (rules : list rule) (fs : store) (raw : text) :
  fs !! status_go = Some (File raw) → decodes raw = true →
  fix_status_over sub pf rules fs
  = match apply_rules_over sub rules (join (new_lines_of (readlines raw))) with
    | Ok content =>
      (Ok tt, <[status_go := File (write_newlines pf content)]> fs)
    | Raise e => (Raise e, fs)
    | Unmodelled => (Unmodelled, fs)
    end.
Proof.
  intros H Hdec.
  unfold fix_status_over, bind, open_readlines, lift, open_write.
  rewrite H, Hdec. destruct (apply_rules_over _ _ _); [|done..].
  by rewrite H.
Qed.

(** Whatever the engine, a run that does not return leaves the store as
    it was. *)
Lemma fix_status_over_failure (sub : text → text → text → result text)
    (pf : platform) (rules : list rule) (fs : store) :
  (∀ u, (fix_status_over sub pf rules fs).1 ≠ Ok u) →
  (fix_status_over sub pf rules fs).2 = fs.
Proof.
  intros Hno. destruct (fs !! status_go) as [[raw|]|] eqn:E.
  - destruct (decodes raw) eqn:Hdec.
    + rewrite (fix_status_over_run _ _ _ _ raw E Hdec) in Hno |- *.
      destruct (apply_rules_over _ _ _); [|done..]. by destruct (Hno tt).
    + by rewrite (fix_status_over_undecodable _ _ _ _ raw).
  - by rewrite fix_status_over_directory.
  - by rewrite fix_status_over_missing.
Qed.

Lemma fix_status_run (pf : platform) (fs : store) (raw : text) :
  fs !! status_go = Some (File raw) → decodes raw = true →
  fix_status pf fs
  = (Ok tt,
     <[status_go :=
         File (write_newlines pf
                 (rewrite_text (join (new_lines_of (readlines raw)))))]>
       fs).
Proof.
  intros H Hdec.
  rewrite fix_status_with_program, fix_status_with_over.
  rewrite (fix_status_over_run _ _ _ _ raw H Hdec).
  change (apply_rules_over re_sub) with apply_rules.
  by rewrite apply_program_rules.
Qed.

Lemma apply_rules_over_cons (sub : text → text → text → result text)
    (pattern repl : text) (rules : list rule) (s : text) :
  apply_rules_over sub ((pattern, repl) :: rules) s
  = result_bind (sub pattern repl s) (apply_rules_over sub rules).
Proof.
  unfold apply_rules_over. cbn [fold_left result_bind].
  destruct (sub pattern repl s) as [t| |]; [done| |].
  - induction rules as [|[q t] rules IH]; [done|]. apply IH.
  - induction rules as [|[q t] rules IH]; [done|]. apply IH.
Qed.

(** A rule whose pattern does not compile stops the chain. *)
Lemma apply_rules_over_failure (E : regex_engine) (rules : list rule)
    (pattern repl : text) (s : text) :
  raises_on_failure E →
  (pattern, repl) ∈ rules → engine_compiles E pattern = false →
  ∀ t, apply_rules_over (engine_sub E) rules s ≠ Ok t.
Proof.
  intros HE Hin Hbad. revert s.
  induction rules as [|[q t] rules IH]; [by apply elem_of_nil in Hin|].
  intros s u. rewrite apply_rules_over_cons.
  apply elem_of_cons in Hin as [Heq|Hin].
  - injection Heq as <- <-. by rewrite HE.
  - destruct (engine_sub E q t s) as [s'| |]; [|done|done]. by apply IH.
Qed.

(** Regular rules give a text or the error of [re.sub]. *)
Lemma apply_rules_over_regular (E : regex_engine) (rules : list rule)
    (s : text) :
  Forall (regular E) rules →
  (∃ t, apply_rules_over (engine_sub E) rules s = Ok t)
  ∨ apply_rules_over (engine_sub E) rules s = Raise PatternError.
Proof.
  intros H. revert s. induction H as [|[q t] rules Hq _ IH].
  - intros s. left. by exists s.
  - intros s. rewrite apply_rules_over_cons.
    destruct (Hq s) as [[s' Hs']|Hraise]; cbn [fst snd] in *.
    + rewrite Hs'. apply IH.
    + right. by rewrite Hraise.
Qed.

Lemma fragment_engine_raises : raises_on_failure fragment_engine.
Proof.
  intros pattern repl s. cbn [engine_compiles engine_sub fragment_engine].
  unfold re_sub. by destruct (re_compile pattern).
Qed.

(** The only exception the chain raises is the one of [re.sub]. *)
Lemma apply_rules_raises (rules : list rule) (s : text) (e : exn) :
  apply_rules rules s = Raise e → e = PatternError.
Proof.
  revert s. induction rules as [|[q t] rules IH]; [done|].
  intros s. rewrite apply_rules_cons. unfold re_sub.
  destruct (re_compile q); [|simpl; congruence|done].
  destruct (re_template t); [|done]. apply IH.
Qed.

(** ** Newline translation *)

Lemma universal_newlines_id (s : text) : CR ∉ s → universal_newlines s = s.
Proof.
  induction s as [|c s IH]; [done|].
  rewrite not_elem_of_cons. intros [Hc Hs]. cbn [universal_newlines].
  destruct (Ascii.eqb c CR) eqn:E; [by apply ascii_eqb_true in E|].
  by rewrite IH.
Qed.

Lemma universal_newlines_no_CR_step (s : text) :
  (CR ∉ universal_newlines s) ∧ (∀ c, CR ∉ universal_newlines (c :: s)).
Proof.
  induction s as [|d s [IH1 IH2]].
  - split; [apply not_elem_of_nil|]. intros c. cbn [universal_newlines].
    destruct (Ascii.eqb c CR) eqn:E.
    + compute_done.
    + apply ascii_eqb_false in E. apply not_elem_of_cons.
      split; [congruence|apply not_elem_of_nil].
  - split; [apply IH2|]. intros c.
    change (universal_newlines (c :: d :: s))
      with (if Ascii.eqb c CR
            then if Ascii.eqb d LF then LF :: universal_newlines s
                 else LF :: universal_newlines (d :: s)
            else c :: universal_newlines (d :: s)).
    destruct (Ascii.eqb c CR) eqn:E.
    + destruct (Ascii.eqb d LF); apply not_elem_of_cons;
        (split; [compute_done|done || apply IH2]).
    + apply ascii_eqb_false in E. apply not_elem_of_cons.
      split; [congruence|apply IH2].
Qed.

Lemma universal_newlines_no_CR (s : text) : CR ∉ universal_newlines s.
Proof. apply universal_newlines_no_CR_step. Qed.

Lemma write_newlines_posix (s : text) : write_newlines Posix s = s.
Proof.
  unfold write_newlines. induction s as [|c s IH]; [done|].
  cbn [flat_map]. rewrite IH. destruct (Ascii.eqb c LF) eqn:E; [|done].
  by apply ascii_eqb_true in E as ->.
Qed.

(** Reading back what was written gives the text that was written. *)
Lemma universal_write_newlines (pf : platform) (s : text) :
  CR ∉ s → universal_newlines (write_newlines pf s) = s.
Proof.
  unfold write_newlines. induction s as [|c s IH]; [done|].
  rewrite not_elem_of_cons. intros [Hc Hs]. cbn [flat_map].
  destruct (Ascii.eqb c LF) eqn:E.
  - apply ascii_eqb_true in E as ->. destruct pf; cbn [linesep app].
    + cbn [universal_newlines]. rewrite (proj2 (ascii_eqb_false LF CR)) by done.
      f_equal; by apply IH.
    + cbn [universal_newlines].
      rewrite (proj2 (ascii_eqb_true CR CR)), (proj2 (ascii_eqb_true LF LF)) by done.
      f_equal; by apply IH.
  - cbn [app universal_newlines].
    rewrite (proj2 (ascii_eqb_false c CR)) by done. f_equal; by apply IH.
Qed.

Lemma write_newlines_inj (pf : platform) (s t : text) :
  CR ∉ s → CR ∉ t → write_newlines pf s = write_newlines pf t → s = t.
Proof.
  intros Hs Ht H. apply (f_equal universal_newlines) in H.
  by rewrite !universal_write_newlines in H.
Qed.

(** ** What the transformation keeps *)

Lemma elem_of_join (c : ascii) (ls : list text) :
  c ∈ join ls ↔ ∃ l, l ∈ ls ∧ c ∈ l.
Proof.
  unfold join. induction ls as [|l ls IH]; simpl.
  - rewrite elem_of_nil. split; [done|]. intros (l & H & _).
    by apply elem_of_nil in H.
  - rewrite elem_of_app, IH. split.
    + intros [H|(l' & H1 & H2)].
      * exists l. split; [apply list_elem_of_here|done].
      * exists l'. split; [by apply list_elem_of_further|done].
    + intros (l' & H1 & H2). apply elem_of_cons in H1 as [->|H1]; [by left|].
      right. eauto.
Qed.

Lemma elem_of_new_lines (l : text) (lines : list text) :
  l ∈ new_lines_of lines ↔ l ∈ lines
    ∨ (l = insertion_storage ∧ 0 < matching anchor_cmd lines).
Proof.
  unfold new_lines_of. rewrite inject_lines_emitted.
  induction lines as [|x lines IH].
  - simpl. rewrite !elem_of_nil. unfold matching. simpl. split; [done|].
    intros [[]|[_ ?]]. lia.
  - cbn [flat_map]. rewrite elem_of_app, IH, matching_cons, elem_of_cons.
    unfold emitted. destruct (contains anchor_cmd x);
      rewrite !elem_of_cons, elem_of_nil; intuition (first [lia|auto]).
Qed.

Lemma transform_no_CR (s : text) : CR ∉ s → CR ∉ transform s.
Proof.
  intros Hs Hin. unfold transform, rewrite_text in Hin.
  apply rewrite_with_elem_of in Hin as [Hin|Hin]; [| |by apply lit_rules_nonempty].
  - apply elem_of_join in Hin as (l & Hl & Hc).
    apply elem_of_new_lines in Hl as [Hl|[-> _]].
    + apply Hs. rewrite <- (join_split_lines s). apply elem_of_join. eauto.
    + revert Hc. compute_done.
  - revert Hin. apply Forall_Exists_neg.
    eapply Forall_impl; [apply (lit_rules_foreign CR); compute_done|].
    by intros rl [_ ?].
Qed.

Lemma count_char_app (c : ascii) (s t : text) :
  count_char c (s ++ t) = count_char c s + count_char c t.
Proof. unfold count_char. by rewrite filter_app, length_app. Qed.

(** Every inserted line brings one line feed. *)
Lemma new_lines_count_LF (lines : list text) :
  count_char LF (join (new_lines_of lines))
  = count_char LF (join lines) + matching anchor_cmd lines.
Proof.
  unfold new_lines_of, join. rewrite inject_lines_emitted.
  induction lines as [|l lines IH]; [done|].
  rewrite matching_cons. cbn [flat_map concat].
  rewrite concat_app, !count_char_app, IH. unfold emitted.
  destruct (contains anchor_cmd l); cbn [concat]; rewrite ?count_char_app.
  - change (count_char LF insertion_storage) with 1.
    change (count_char LF []) with 0. lia.
  - change (count_char LF []) with 0. lia.
Qed.

Lemma rewrite_text_count_LF (s : text) :
  count_char LF (rewrite_text s) = count_char LF s.
Proof.
  apply rewrite_with_count; [apply lit_rules_nonempty|].
  apply lit_rules_foreign. compute_done.
Qed.

Lemma absent_by_contains (rules : list rule) (s : text) :
  Forall (λ rl : rule, contains rl.1 s = false) rules →
  Forall (λ rl : rule, ¬ occurs rl.1 s) rules.
Proof. intros H. eapply Forall_impl; [exact H|]. intros rl. apply contains_false. Qed.

(** No rule touches an occurrence of the anchor: its quotes are foreign
    to every pattern and no pattern occurs between them. *)
Lemma rewrite_text_keeps_anchor (s : text) :
  occurs anchor_cmd s → occurs anchor_cmd (rewrite_text s).
Proof.
  intros (u & v & ->). unfold rewrite_text.
  change anchor_cmd with (DQ :: anchor_path ++ [DQ]).
  cbn [app]. rewrite <- app_assoc. cbn [app].
  assert (Forall (λ rl : rule, DQ ∉ rl.1) lit_rules) as HDQ.
  { apply lit_rules_foreign_patterns. compute_done. }
  rewrite !rewrite_with_barrier by (done || apply lit_rules_nonempty).
  rewrite (rewrite_with_absent _ anchor_path)
    by (apply lit_rules_nonempty || (apply absent_by_contains; compute_done)).
  exists (rewrite_with lit_rules u), (rewrite_with lit_rules v).
  cbn [app]. by rewrite <- app_assoc.
Qed.

Lemma transform_keeps_anchor (s : text) (l : text) :
  l ∈ split_lines s → contains anchor_cmd l = true →
  ∃ l', l' ∈ split_lines (transform s) ∧ contains anchor_cmd l' = true.
Proof.
  intros Hl Hc. apply contains_occurs in Hc.
  assert (occurs anchor_cmd (transform s)) as Hocc.
  { apply rewrite_text_keeps_anchor. apply (occurs_join _ l); [|done].
    apply elem_of_new_lines. by left. }
  apply occurs_in_line in Hocc as (l' & Hl' & Hocc); [|compute_done|done].
  exists l'. split; [done|]. by apply contains_occurs.
Qed.

Lemma transform_count_LF (s : text) :
  count_char LF (transform s)
  = count_char LF s + matching anchor_cmd (split_lines s).
Proof.
  unfold transform.
  by rewrite rewrite_text_count_LF, new_lines_count_LF, join_split_lines.
Qed.

Lemma fix_status_transform (pf : platform) (fs : store) (raw : text) :
  fs !! status_go = Some (File raw) → decodes raw = true →
  fix_status pf fs
  = (Ok tt,
     <[status_go :=
         File (write_newlines pf (transform (universal_newlines raw)))]> fs).
Proof. apply fix_status_run. Qed.

(** ** Decoding *)

Lemma between_ascii (lo hi : nat) (c : ascii) :
  is_ascii c = true → 128 ≤ lo → between lo hi c = false.
Proof.
  unfold is_ascii, between. intros Hc%Nat.ltb_lt Hlo.
  apply andb_false_iff. left. apply Nat.leb_gt. lia.
Qed.

Lemma second_of_three_ascii (b0 c : ascii) :
  is_ascii c = true → second_of_three b0 c = false.
Proof.
  intros Hc. unfold second_of_three.
  repeat case_match; by apply between_ascii; [|lia].
Qed.

Lemma second_of_four_ascii (b0 c : ascii) :
  is_ascii c = true → second_of_four b0 c = false.
Proof.
  intros Hc. unfold second_of_four.
  repeat case_match; by apply between_ascii; [|lia].
Qed.

(** An ASCII byte is a character of its own: the text decodes exactly
    when what is before it and what is behind it decode. *)
Lemma utf8_valid_ascii (c : ascii) (u v : text) :
  is_ascii c = true →
  utf8_valid (u ++ c :: v) = utf8_valid u && utf8_valid v.
Proof.
  intros Hc. remember (length u) as n eqn:Hn. revert u Hn.
  induction (lt_wf n) as [n _ IH]. intros u ->.
  assert (∀ u', length u' < length u →
            utf8_valid (u' ++ c :: v) = utf8_valid u' && utf8_valid v) as IH'.
  { intros u' Hu'. by apply (IH (length u')). }
  clear IH.
  pose proof (between_ascii 128 191 c Hc ltac:(lia)) as Hcont.
  destruct u as [|b0 u]; [cbn [app utf8_valid]; by rewrite Hc|].
  cbn [app utf8_valid]. destruct (is_ascii b0).
  { apply IH'. simpl. lia. }
  destruct (between 194 223 b0).
  { destruct u as [|b1 u]; cbn [app]; [by rewrite Hcont|].
    rewrite IH' by (simpl; lia). by rewrite andb_assoc. }
  destruct (between 224 239 b0).
  { destruct u as [|b1 [|b2 u]]; cbn [app].
    - rewrite second_of_three_ascii by done. by destruct v.
    - by rewrite Hcont, andb_false_r.
    - rewrite IH' by (simpl; lia). by rewrite !andb_assoc. }
  destruct (between 240 244 b0); [|done].
  destruct u as [|b1 [|b2 [|b3 u]]]; cbn [app].
  - rewrite second_of_four_ascii by done. by destruct v as [|? [|? ?]].
  - rewrite Hcont, andb_false_r. by destruct v.
  - by rewrite Hcont, andb_false_r.
  - rewrite IH' by (simpl; lia). by rewrite !andb_assoc.
Qed.

Lemma utf8_valid_cons_ascii (c : ascii) (v : text) :
  is_ascii c = true → utf8_valid (c :: v) = utf8_valid v.
Proof. intros Hc. cbn [utf8_valid]. by rewrite Hc. Qed.

Lemma utf8_valid_ascii_prefix (a v : text) :
  forallb is_ascii a = true → utf8_valid (a ++ v) = utf8_valid v.
Proof.
  induction a as [|c a IH]; [done|]. cbn [forallb app utf8_valid].
  intros [Hc Ha]%andb_true_iff. rewrite Hc. by apply IH.
Qed.

(** A non-empty ASCII stretch cuts the text in two for the decoder. *)
Lemma utf8_valid_ascii_stretch (a u v : text) :
  a ≠ [] → forallb is_ascii a = true →
  utf8_valid (u ++ a ++ v) = utf8_valid u && utf8_valid v.
Proof.
  destruct a as [|c a]; [done|]. intros _ [Hc Ha]%andb_true_iff.
  cbn [app]. rewrite utf8_valid_ascii by done.
  by rewrite utf8_valid_ascii_prefix.
Qed.

Lemma sub_literal_decodes (p r s pre : text) :
  p ≠ [] → r ≠ [] → forallb is_ascii p = true → forallb is_ascii r = true →
  utf8_valid (pre ++ sub_literal p r s) = utf8_valid (pre ++ s).
Proof.
  destruct p as [|p0 p']; [done|]. intros _ Hr Hp Hra. revert pre.
  induction s as [|rest IH|c s E IH] using (sub_literal_ind p0 p');
    intros pre.
  - done.
  - rewrite sub_literal_match.
    rewrite !utf8_valid_ascii_stretch by done. f_equal. apply (IH []).
  - rewrite sub_literal_skip by done.
    change (pre ++ c :: ?x) with (pre ++ [c] ++ x).
    rewrite !app_assoc. apply IH.
Qed.

Lemma rewrite_with_decodes (rules : list rule) (s : text) :
  Forall (λ rl : rule, rl.1 ≠ [] ∧ rl.2 ≠ []
                       ∧ forallb is_ascii rl.1 = true
                       ∧ forallb is_ascii rl.2 = true) rules →
  utf8_valid (rewrite_with rules s) = utf8_valid s.
Proof.
  intros H. revert s. induction H as [|[p r] rules (Hp & Hr & Hpa & Hra) _ IH].
  - done.
  - intros s. rewrite rewrite_with_cons, IH. cbn [fst snd] in *.
    by apply (sub_literal_decodes p r s []).
Qed.

Lemma universal_newlines_decodes_step (s : text) :
  (∀ pre, utf8_valid (pre ++ universal_newlines s) = utf8_valid (pre ++ s))
  ∧ (∀ c pre, utf8_valid (pre ++ universal_newlines (c :: s))
              = utf8_valid (pre ++ c :: s)).
Proof.
  assert (is_ascii LF = true ∧ is_ascii CR = true) as [HLF HCR] by done.
  induction s as [|d s [IH1 IH2]].
  - split; [done|]. intros c pre. cbn [universal_newlines].
    destruct (Ascii.eqb c CR) eqn:E; [|done].
    apply ascii_eqb_true in E as ->. by rewrite !utf8_valid_ascii.
  - split; [apply IH2|]. intros c pre.
    change (universal_newlines (c :: d :: s))
      with (if Ascii.eqb c CR
            then if Ascii.eqb d LF then LF :: universal_newlines s
                 else LF :: universal_newlines (d :: s)
            else c :: universal_newlines (d :: s)).
    destruct (Ascii.eqb c CR) eqn:E.
    + apply ascii_eqb_true in E as ->.
      destruct (Ascii.eqb d LF) eqn:E'.
      * apply ascii_eqb_true in E' as ->.
        rewrite !utf8_valid_ascii by done.
        rewrite utf8_valid_cons_ascii by done.
        f_equal. apply (IH1 []).
      * rewrite !utf8_valid_ascii by done. f_equal. apply (IH2 d []).
    + change (pre ++ c :: ?x) with (pre ++ [c] ++ x).
      rewrite !app_assoc. apply IH2.
Qed.

Lemma universal_newlines_decodes (s : text) :
  utf8_valid (universal_newlines s) = utf8_valid s.
Proof. apply (proj1 (universal_newlines_decodes_step s) []). Qed.

Lemma write_newlines_decodes (pf : platform) (s : text) :
  utf8_valid (write_newlines pf s) = utf8_valid s.
Proof.
  assert (is_ascii LF = true ∧ is_ascii CR = true) as [HLF HCR] by done.
  assert (∀ pre, utf8_valid (pre ++ write_newlines pf s)
                 = utf8_valid (pre ++ s)) as H; [|apply (H [])].
  unfold write_newlines. induction s as [|c s IH]; [done|].
  intros pre. cbn [flat_map]. destruct (Ascii.eqb c LF) eqn:E.
  - apply ascii_eqb_true in E as ->. destruct pf; cbn [linesep app].
    + rewrite !utf8_valid_ascii by done. f_equal. apply (IH []).
    + rewrite !utf8_valid_ascii by done.
      rewrite utf8_valid_cons_ascii by done. f_equal. apply (IH []).
  - change (pre ++ [c] ++ ?x) with (pre ++ [c] ++ x).
    cbn [app]. change (pre ++ c :: ?x) with (pre ++ [c] ++ x).
    rewrite !app_assoc. apply IH.
Qed.

Lemma new_lines_decodes (s : text) :
  utf8_valid (join (new_lines_of (split_lines s))) = utf8_valid s.
Proof.
  assert (is_ascii LF = true) as HLF by done.
  assert (insertion_storage ≠ [] ∧ forallb is_ascii insertion_storage = true)
    as [Hne Hins] by done.
  unfold new_lines_of, join. rewrite inject_lines_emitted.
  induction s as [|u Hu Hu'|u v Hu IH] using lines_ind.
  - done.
  - rewrite split_lines_single by done. cbn [flat_map concat].
    rewrite !app_nil_r. unfold emitted.
    destruct (contains anchor_cmd u); cbn [concat]; rewrite ?app_nil_r; [|done].
    rewrite <- (app_nil_r (u ++ insertion_storage)), <- app_assoc.
    rewrite utf8_valid_ascii_stretch by done. by rewrite andb_true_r.
  - rewrite split_lines_first by done. cbn [flat_map].
    rewrite concat_app. unfold emitted at 1.
    destruct (contains anchor_cmd (u ++ [LF])); cbn [concat];
      rewrite ?app_nil_r, <- !app_assoc; cbn [app];
      rewrite !utf8_valid_ascii by done.
    + rewrite utf8_valid_ascii_prefix by done. by rewrite IH.
    + by rewrite IH.
Qed.

(** What the script writes decodes when what it read did. *)
Lemma written_decodes (pf : platform) (raw : text) :
  decodes (write_newlines pf (transform (universal_newlines raw)))
  = decodes raw.
Proof.
  unfold decodes, transform, rewrite_text.
  rewrite write_newlines_decodes, rewrite_with_decodes by compute_done.
  by rewrite new_lines_decodes, universal_newlines_decodes.
Qed.

(** ** Line endings and the injected line *)

Lemma split_lines_app_terminated (x w : text) :
  split_lines ((x ++ [LF]) ++ w) = split_lines (x ++ [LF]) ++ split_lines w.
Proof.
  induction x as [|c x IH].
  - cbn [app split_lines]. by rewrite (proj2 (ascii_eqb_true LF LF)).
  - cbn [app split_lines]. destruct (Ascii.eqb c LF); [by rewrite IH|].
    rewrite IH. destruct (split_lines (x ++ [LF])) as [|y ys] eqn:E; [|done].
    apply (f_equal join) in E. rewrite join_split_lines in E.
    by destruct x.
Qed.

Lemma split_lines_join_terminated (ls : list text) (w : text) :
  Forall terminated ls →
  split_lines (join ls ++ w) = split_lines (join ls) ++ split_lines w.
Proof.
  unfold join. induction 1 as [|l ls [l' ->] _ IH]; [done|].
  cbn [concat]. rewrite <- !app_assoc.
  rewrite (app_assoc l' [LF]), split_lines_app_terminated, IH.
  rewrite (app_assoc l' [LF] (concat ls)), split_lines_app_terminated.
  by rewrite <- app_assoc.
Qed.

(** A line that holds a line feed ends in it. *)
Lemma split_lines_terminated (s l : text) :
  l ∈ split_lines s → LF ∈ l → terminated l.
Proof.
  induction s as [|u Hu Hu'|u v Hu IH] using lines_ind.
  - intros H. by apply elem_of_nil in H.
  - rewrite split_lines_single by done.
    intros H%list_elem_of_singleton. by subst.
  - rewrite split_lines_first by done. rewrite elem_of_cons.
    intros [->|H]; [by exists u|]. by apply IH.
Qed.

(** All lines but the last are terminated. *)
Lemma split_lines_init_terminated (s : text) (ls : list text) (l : text) :
  split_lines s = ls ++ [l] → Forall terminated ls.
Proof.
  revert ls. induction s as [|u Hu Hu'|u v Hu IH] using lines_ind; intros ls.
  - by destruct ls.
  - rewrite split_lines_single by done. destruct ls as [|x [|y ls]]; done.
  - rewrite split_lines_first by done. destruct ls as [|x ls].
    + done.
    + cbn [app]. intros H. injection H as <- H.
      apply Forall_cons. split; [by exists u|]. by apply IH.
Qed.

Lemma new_lines_terminated (lines : list text) :
  Forall terminated lines → Forall terminated (new_lines_of lines).
Proof.
  rewrite !Forall_forall. intros H l [Hl|[-> _]]%elem_of_new_lines; [auto|].
  by exists (removelast insertion_storage).
Qed.

Lemma new_lines_app (lines1 lines2 : list text) :
  new_lines_of (lines1 ++ lines2)
  = new_lines_of lines1 ++ new_lines_of lines2.
Proof.
  unfold new_lines_of. rewrite !inject_lines_emitted. apply flat_map_app.
Qed.

Lemma last_split_lines_insertion (l : text) :
  LF ∉ l → split_lines (l ++ insertion_storage) = [l ++ insertion_storage].
Proof.
  intros Hl.
  change insertion_storage with (removelast insertion_storage ++ [LF]).
  rewrite app_assoc. rewrite split_lines_first; [done|].
  rewrite not_elem_of_app. split; [done|compute_done].
Qed.

(** ** What a substitution can bring about *)

Lemma occurs_app_inv (q L r : text) :
  occurs q (L ++ r) →
  occurs q L ∨ occurs q r
  ∨ ∃ y x, q = y ++ x ∧ y ≠ [] ∧ x ≠ []
           ∧ y `suffix_of` L ∧ x `prefix_of` r.
Proof.
  intros (a & b & H).
  apply app_eq_app in H as [l [[HL Hr]|[Ha Hr]]].
  - symmetry in Hr. apply app_eq_app in Hr as [l' [[Hl Hb]|[Hq Hr]]].
    + left. exists a, l'. by rewrite HL, Hl.
    + destruct l as [|c l].
      { right. left. exists [], b. by rewrite Hr, Hq. }
      destruct l' as [|c' l'].
      { left. exists a, []. rewrite HL, Hq. by rewrite !app_nil_r. }
      right. right. exists (c :: l), (c' :: l'). split_and!; try done.
      * by exists a.
      * by exists b.
  - right. left. exists l, b. done.
Qed.

Lemma occurs_snoc_inv (q L : text) (c : ascii) :
  q ≠ [] → occurs q (L ++ [c]) → occurs q L ∨ q `suffix_of` (L ++ [c]).
Proof.
  intros Hq [H|[H|H]]%occurs_app_inv; [by left|..]; right.
  - destruct H as (a & b & H). destruct a as [|a0 a].
    + destruct q as [|q0 [|q1 q]]; try done. injection H as -> ->.
      by exists L.
    + injection H as _ H. symmetry in H.
      apply app_eq_nil in H as [_ H]. by apply app_eq_nil in H as [? _].
  - destruct H as (y & x & -> & Hy & Hx & [k ->] & [k' Hk]).
    destruct x as [|x0 [|x1 x]]; try done.
    injection Hk as -> _. exists k. by rewrite app_assoc.
Qed.

Lemma suffix_snoc_cases (x L : text) (c : ascii) :
  x `suffix_of` (L ++ [c]) →
  x = [] ∨ ∃ x0, x = x0 ++ [c] ∧ x0 `suffix_of` L.
Proof.
  intros [k H]. destruct x as [|x0 x _] using rev_ind; [by left|]. right.
  rewrite app_assoc in H. apply app_inj_tail in H as [-> ->].
  exists x. split; [done|]. by exists k.
Qed.

Lemma suffix_app_cases (x L r : text) :
  x `suffix_of` (L ++ r) →
  x `suffix_of` r ∨ ∃ x0, x0 ≠ [] ∧ x = x0 ++ r ∧ x0 `suffix_of` L.
Proof.
  intros [k H]. apply app_eq_app in H as [l [[HL Hr]|[Hk Hr]]].
  - destruct l as [|c l].
    + left. exists []. by rewrite Hr.
    + right. exists (c :: l). split_and!; [done|done|]. by exists k.
  - left. by exists l.
Qed.

Section ScanInvariant.
Variable p0 : ascii.
Variable p' : text.
Variables r q t : text.
Local Abbreviation p := (p0 :: p').

Hypothesis q_nonempty : q ≠ [].
Hypothesis not_inside : ¬ occurs q r.
Hypothesis not_around : ¬ occurs r q.
Hypothesis not_ending_inside :
  ∀ y x, q = y ++ x → y ≠ [] → x ≠ [] → ¬ x `prefix_of` r.
Hypothesis overlaps_harmless :
  ∀ o m, o ≠ [] → o `suffix_of` r → q = o ++ m → ¬ occurs (p ++ m) t.
Hypothesis absent_before : q ≠ p → ¬ occurs q t.

Lemma scan_state_start : scan_state p q t false [] t.
Proof.
  split; [|by exists []]. intros _ M1 M2 H. symmetry in H.
  by apply app_eq_nil in H as [_ ->].
Qed.

Lemma scan_state_skip (fl : bool) (M s : text) (c : ascii) :
  scan_state p q t fl M (c :: s) → strip_prefix p (c :: s) = None →
  scan_state p q t fl (M ++ [c]) s.
Proof.
  intros [Hun [pre Ht]] E. split.
  - intros Hqp M1 M2 HM HM2.
    destruct M2 as [|d M2 _] using rev_ind; [done|].
    rewrite app_assoc in HM. apply app_inj_tail in HM as [-> ->].
    rewrite <- app_assoc. cbn [app]. destruct M2 as [|e M2]; [done|].
    by apply (Hun Hqp M1 (e :: M2)).
  - exists pre. rewrite Ht. by rewrite <- !app_assoc.
Qed.

Lemma scan_state_match (fl : bool) (M rest : text) :
  scan_state p q t fl M (p ++ rest) → scan_state p q t true [] rest.
Proof.
  intros [_ [pre Ht]]. split.
  - intros _ M1 M2 H. symmetry in H. by apply app_eq_nil in H as [_ ->].
  - exists (pre ++ (if fl then p else []) ++ M). rewrite Ht.
    by rewrite <- !app_assoc.
Qed.

Lemma scan_state_no_suffix (fl : bool) (M s : text) :
  scan_state p q t fl M s → ¬ q `suffix_of` M.
Proof.
  intros [Hun [pre Ht]] [k HM].
  destruct (decide (q = p)) as [Hqp|Hqp].
  - specialize (Hun Hqp k q HM q_nonempty). rewrite Hqp in Hun.
    by rewrite strip_prefix_app in Hun.
  - apply (absent_before Hqp). rewrite Ht, HM.
    apply occurs_app_r, occurs_app_r, occurs_app_l, occurs_app_r.
    exists [], []. by rewrite app_nil_r.
Qed.

Lemma scan_state_no_overlap (M s : text) (o : text) :
  scan_state p q t true M s → o ≠ [] → o `suffix_of` r → q ≠ o ++ M.
Proof.
  intros [_ [pre Ht]] Ho Hor Hq.
  apply (overlaps_harmless o M Ho Hor Hq). rewrite Ht.
  exists pre, s. by rewrite <- !app_assoc.
Qed.

(** The scan never completes an occurrence of [q]. *)
Lemma scan_keeps_absent (s : text) :
  ∀ L M fl, scan_state p q t fl M s → ¬ occurs q L → dominated r q L M fl →
            ¬ occurs q (L ++ sub_literal p r s).
Proof.
  induction s as [|rest IH|c s E IH] using (sub_literal_ind p0 p');
    intros L M fl Hst HL Hdom.
  - by rewrite sub_literal_nil, app_nil_r.
  - rewrite sub_literal_match, app_assoc.
    apply (IH (L ++ r) [] true).
    + by apply (scan_state_match fl M).
    + intros [H|[H|H]]%occurs_app_inv; [done..|].
      destruct H as (y & x & Hq & Hy & Hx & _ & Hxr).
      by apply (not_ending_inside y x).
    + intros x Hx [Hxr|(x0 & Hx0 & -> & _)]%suffix_app_cases Hxq.
      * right. split; [done|]. exists x. by rewrite app_nil_r.
      * destruct not_around. destruct Hxq as [k ->].
        exists x0, k. by rewrite <- app_assoc.
  - rewrite sub_literal_skip by done.
    change (L ++ c :: sub_literal p r s)
      with (L ++ [c] ++ sub_literal p r s).
    rewrite app_assoc.
    assert (dominated r q (L ++ [c]) (M ++ [c]) fl) as Hdom'.
    { intros x Hx [->|(x0 & -> & Hx0)]%suffix_snoc_cases Hxq; [done|].
      destruct x0 as [|d x0].
      { left. by exists M. }
      destruct (Hdom (d :: x0)) as [[k ->]|[-> (o & Ho & Hor & Hx0o)]].
      - done.
      - done.
      - destruct Hxq as [k ->]. exists ([c] ++ k). by rewrite <- app_assoc.
      - left. exists k. by rewrite <- app_assoc.
      - right. split; [done|]. exists o. split_and!; [done..|].
        by rewrite Hx0o, <- app_assoc. }
    pose proof (scan_state_skip fl M s c Hst E) as Hst'.
    apply (IH (L ++ [c]) (M ++ [c]) fl); [done| |done].
    intros [H|Hsuf]%occurs_snoc_inv; [done| |done].
    destruct (Hdom' q q_nonempty Hsuf) as [H|[-> (o & Ho & Hor & Hq)]].
    + exists []. by rewrite app_nil_r.
    + by apply (scan_state_no_suffix fl (M ++ [c]) s).
    + by apply (scan_state_no_overlap (M ++ [c]) s o).
Qed.

(** After the substitution [q] does not occur. *)
Lemma sub_literal_keeps_absent : ¬ occurs q (sub_literal p r t).
Proof.
  apply (scan_keeps_absent t [] [] false).
  - apply scan_state_start.
  - intros (a & b & H). symmetry in H.
    apply app_eq_nil in H as [_ H]. by apply app_eq_nil in H as [? _].
  - intros x Hx Hsuf. by apply suffix_nil_inv in Hsuf.
Qed.
End ScanInvariant.

Lemma ends_inside_sound (q r y x : text) :
  ¬ ends_inside q r → q = y ++ x → y ≠ [] → x ≠ [] → ¬ x `prefix_of` r.
Proof.
  intros Hno -> Hy Hx Hxr. apply Hno, Exists_exists.
  exists (length y). split.
  - apply elem_of_seq. rewrite length_app.
    destruct y, x; simpl in *; try done; lia.
  - by rewrite drop_app_length.
Qed.

Lemma overlap_tails_sound (r q o m : text) :
  o ≠ [] → m ≠ [] → o `suffix_of` r → q = o ++ m → m ∈ overlap_tails r q.
Proof.
  intros Ho Hm Hor ->. apply list_elem_of_omap. exists (length o). split.
  - apply elem_of_seq. rewrite length_app.
    destruct o, m; simpl in *; try done; lia.
  - rewrite take_app_length, drop_app_length. by rewrite decide_True.
Qed.

(** A substitution leaves [q] absent when [q] cannot lie in, around or
    across the end of the replacement, and the input has no match
    followed by what would complete [q] from the replacement's end. *)
Lemma sub_keeps_absent (p r q t : text) :
  p ≠ [] → q ≠ [] →
  contains q r = false → contains r q = false → ¬ ends_inside q r →
  Forall (λ m, ¬ occurs (p ++ m) t) (overlap_tails r q) →
  (q ≠ p → ¬ occurs q t) →
  ¬ occurs q (sub_literal p r t).
Proof.
  destruct p as [|p0 p']; [done|]. intros _ Hq Hin Hout Hend Htails Hbefore.
  apply sub_literal_keeps_absent; try done.
  - by apply contains_false.
  - by apply contains_false.
  - intros y x. by apply ends_inside_sound.
  - intros o m Ho Hor Hqo. destruct m as [|m0 m].
    + rewrite app_nil_r in Hqo. subst o. apply contains_false in Hin.
      destruct Hin. destruct Hor as [k ->]. exists k, [].
      by rewrite app_nil_r.
    + rewrite Forall_forall in Htails. apply Htails.
      by apply (overlap_tails_sound r q o).
Qed.

Lemma rule_keeps_sound (rl : rule) (q t : text) :
  rule_keeps rl q → (q ≠ rl.1 → ¬ occurs q t) →
  ¬ occurs q (sub_literal rl.1 rl.2 t).
Proof.
  intros (Hq & Hp & Hin & Hout & Hend & Htails) Hbefore.
  apply sub_keeps_absent; try done. by rewrite Htails.
Qed.

(** Rules that keep their own and the earlier patterns away leave none of
    them in the text. *)
Lemma keeps_all_sound (rules : list rule) (qs : list text) (t : text) :
  keeps_all qs rules = true →
  Forall (λ q, ¬ occurs q t) qs →
  Forall (λ q, ¬ occurs q (rewrite_with rules t)) qs
  ∧ Forall (λ rl : rule, ¬ occurs rl.1 (rewrite_with rules t)) rules.
Proof.
  revert qs t. induction rules as [|[p r] rules IH]; intros qs t; [done|].
  cbn [keeps_all fst]. rewrite andb_true_iff, bool_decide_eq_true.
  intros [Hkeeps Hrest] Hqs. rewrite rewrite_with_cons.
  destruct (IH (p :: qs) (sub_literal p r t) Hrest) as [Hqs' Hrules'].
  - rewrite Forall_forall in Hkeeps, Hqs. apply Forall_forall.
    intros q Hq. apply (rule_keeps_sound (p, r) q t); [by apply Hkeeps|].
    intros Hqp. apply elem_of_cons in Hq as [->|Hq]; [done|by apply Hqs].
  - apply Forall_cons in Hqs' as [Hp Hqs']. split; [done|].
    by apply Forall_cons.
Qed.

(** Without [relapse] in the input, one pass leaves no match behind. *)
Lemma rewrite_text_settled (t : text) :
  ¬ occurs relapse t →
  Forall (λ rl : rule, ¬ occurs rl.1 (rewrite_text t)) lit_rules.
Proof.
  intros Hno. unfold rewrite_text, lit_rules. rewrite rewrite_with_cons.
  set (t1 := sub_literal (lit "len(fields) <= 8") rep_len8 t).
  assert (¬ occurs (lit "len(fields) <= 8") t1) as H1.
  { apply sub_keeps_absent; try done.
    - intros Hend. revert Hend. unfold ends_inside. compute_done.
    - change (overlap_tails rep_len8 (lit "len(fields) <= 8"))
        with [lit "en(fields) <= 8"].
      by apply Forall_singleton. }
  match goal with
  | |- Forall _ (_ :: ?rest) =>
    destruct (keeps_all_sound rest [lit "len(fields) <= 8"] t1)
      as [Hq Hrest]
  end.
  - by vm_compute.
  - by apply Forall_singleton.
  - apply Forall_cons. split; [|done]. rewrite Forall_singleton in Hq. exact Hq.
Qed.

(** ** What a substitution cannot take away *)

Lemma enters_sound (p w a y : text) :
  ¬ enters p w → p = a ++ y → a ≠ [] → y ≠ [] → ¬ compatible y w.
Proof.
  intros Hno -> Ha Hy Hc. apply Hno, Exists_exists.
  exists (length a). split.
  - apply elem_of_seq. rewrite length_app.
    destruct a, y; simpl in *; try done; lia.
  - by rewrite drop_app_length.
Qed.

Lemma starts_inside_sound (p w a x : text) :
  ¬ starts_inside p w → w = a ++ x → x ≠ [] → ¬ compatible p x.
Proof.
  intros Hno -> Hx Hc. apply Hno, Exists_exists.
  exists (length a). split.
  - apply elem_of_seq. rewrite length_app.
    destruct x; simpl in *; try done; lia.
  - by rewrite drop_app_length.
Qed.

(** Two texts that begin the same text begin one another. *)
Lemma compatible_of_app (a b x y : text) :
  a ++ x = b ++ y → compatible a b.
Proof.
  intros H. apply app_eq_app in H as [l [[Ha _]|[Hb _]]].
  - right. by exists l.
  - left. by exists l.
Qed.

Section Survival.
Variable p0 : ascii.
Variable p' : text.
Variable r : text.
Local Abbreviation p := (p0 :: p').

(** The scan walks through a text in which no match can begin. *)
Lemma sub_literal_passes (w v : text) :
  ¬ starts_inside p w → sub_literal p r (w ++ v) = w ++ sub_literal p r v.
Proof.
  intros Hno.
  assert (∀ a x, w = a ++ x →
            sub_literal p r (x ++ v) = x ++ sub_literal p r v) as H.
  { intros a x. revert a. induction x as [|c x IH]; intros a Hw; [done|].
    cbn [app]. rewrite sub_literal_skip.
    - f_equal. apply (IH (a ++ [c])). by rewrite <- app_assoc.
    - apply strip_prefix_None. intros rest Hrest.
      apply (starts_inside_sound p w a (c :: x) Hno Hw); [done|].
      apply (compatible_of_app _ _ rest v). symmetry. exact Hrest. }
  by apply (H []).
Qed.

(** A stretch that no earlier match can reach is rewritten on its own. *)
Lemma sub_literal_around (u w w' v : text) :
  w ≠ [] → ¬ enters p w →
  sub_literal p r (w ++ v) = w' ++ sub_literal p r v →
  sub_literal p r (u ++ w ++ v)
  = sub_literal p r u ++ w' ++ sub_literal p r v.
Proof.
  intros Hw Hno Hwv.
  induction u as [|rest IH|c u E IH] using (sub_literal_ind p0 p').
  - done.
  - rewrite <- app_assoc, !sub_literal_match, IH. by rewrite <- app_assoc.
  - cbn [app]. rewrite (sub_literal_skip _ _ _ c u) by done.
    rewrite sub_literal_skip; [by rewrite IH|].
    apply strip_prefix_None. intros rest H.
    change (c :: u ++ w ++ v) with ((c :: u) ++ w ++ v) in H.
    symmetry in H. apply app_eq_app in H as [l [[Hp Hl]|[Hu _]]].
    + destruct l as [|l0 l].
      * rewrite app_nil_r in Hp. rewrite <- Hp in E.
        pose proof (strip_prefix_app p []) as E'.
        rewrite app_nil_r in E'. congruence.
      * apply (enters_sound p w (c :: u) (l0 :: l) Hno Hp); [done..|].
        apply (compatible_of_app _ _ rest v). symmetry. exact Hl.
    + rewrite Hu in E. by rewrite strip_prefix_app in E.
Qed.

(** An occurrence that no match can touch is still there afterwards. *)
Lemma sub_literal_keeps_occurrence (q s : text) :
  q ≠ [] → ¬ enters p q → ¬ starts_inside p q →
  occurs q s → occurs q (sub_literal p r s).
Proof.
  intros Hq Henter Hstart (u & v & ->).
  rewrite (sub_literal_around u q q v); [by eexists _, _|done..|].
  by apply sub_literal_passes.
Qed.
End Survival.

Lemma sub_match (p r rest : text) :
  p ≠ [] → sub_literal p r (p ++ rest) = r ++ sub_literal p r rest.
Proof. destruct p; [done|]. intros _. apply sub_literal_match. Qed.

Lemma sub_passes (p r w v : text) :
  p ≠ [] → ¬ starts_inside p w →
  sub_literal p r (w ++ v) = w ++ sub_literal p r v.
Proof. destruct p; [done|]. intros _. apply sub_literal_passes. Qed.

Lemma sub_around (p r u w w' v : text) :
  p ≠ [] → w ≠ [] → ¬ enters p w →
  sub_literal p r (w ++ v) = w' ++ sub_literal p r v →
  sub_literal p r (u ++ w ++ v)
  = sub_literal p r u ++ w' ++ sub_literal p r v.
Proof. destruct p; [done|]. intros _. apply sub_literal_around. Qed.

Lemma sub_keeps_occurrence (p r q s : text) :
  p ≠ [] → q ≠ [] → ¬ enters p q → ¬ starts_inside p q →
  occurs q s → occurs q (sub_literal p r s).
Proof. destruct p; [done|]. intros _. apply sub_literal_keeps_occurrence. Qed.

Lemma rewrite_with_keeps_occurrence (rules : list rule) (q s : text) :
  q ≠ [] → untouched_by rules q →
  occurs q s → occurs q (rewrite_with rules s).
Proof.
  intros Hq Hun. revert s.
  induction Hun as [|[p r] rules (Hp & Henter & Hstart) _ IH]; [done|].
  intros s Hocc. rewrite rewrite_with_cons. apply IH.
  by apply sub_keeps_occurrence.
Qed.

(** With [relapse] in the input, one pass leaves a match of the first
    pattern behind. *)
Lemma rewrite_text_relapses (t : text) :
  occurs relapse t → occurs (lit "len(fields) <= 8") (rewrite_text t).
Proof.
  intros (u & v & ->). unfold rewrite_text, lit_rules.
  rewrite rewrite_with_cons.
  apply rewrite_with_keeps_occurrence; [done| |].
  - unfold untouched_by, enters, starts_inside. compute_done.
  - change relapse
      with (lit "len(fields) <= 8" ++ lit "en(fields) <= 8").
    rewrite <- (app_assoc (lit "len(fields) <= 8")).
    rewrite (sub_around _ _ u (lit "len(fields) <= 8") rep_len8).
    + rewrite sub_passes.
      * apply occurs_app_r.
        change (rep_len8 ++ lit "en(fields) <= 8" ++ ?x)
          with (lit "len(fields) <= storage.FieldLeve"
                  ++ lit "len(fields) <= 8" ++ x).
        by eexists _, _.
      * done.
      * unfold starts_inside. compute_done.
    + done.
    + done.
    + unfold enters. compute_done.
    + by apply sub_match.
Qed.

(** * The claims *)

(** C1: whatever the input lines, the injector copies every line and puts
    one insertion line directly behind each line that contains the anchor
    ["github.com/cristianoliveira/tmux-intray/cmd"] (quotes included) and
    behind no other line; with k matching lines it emits k insertion
    lines, so the output has k more lines and k more copies of the
    insertion line than the input; with no matching line the output is
    the input. *)
Theorem anchor_injection (lines : list text) :
  new_lines_of lines = flat_map (emitted anchor_cmd insertion_storage) lines
  ∧ length (new_lines_of lines) = length lines + matching anchor_cmd lines
  ∧ insertions insertion_storage (new_lines_of lines)
    = insertions insertion_storage lines + matching anchor_cmd lines
  ∧ (∀ i line, lines !! i = Some line →
       let j := i + matching anchor_cmd (take i lines) in
       new_lines_of lines !! j = Some line
       ∧ (contains anchor_cmd line = true →
          new_lines_of lines !! S j = Some insertion_storage)
       ∧ (contains anchor_cmd line = false →
          new_lines_of lines !! S j = lines !! S i))
  ∧ (matching anchor_cmd lines = 0 → new_lines_of lines = lines).
Proof.
  unfold new_lines_of. split_and!.
  - apply inject_lines_emitted.
  - apply inject_lines_length.
  - apply inject_lines_insertions, insertion_storage_no_anchor.
  - intros i line Hi. by apply inject_lines_lookup.
  - apply inject_lines_no_match.
Qed.

Lemma anchor_injection_witness :
  length (new_lines_of two_imports) = 5
  ∧ new_lines_of two_imports !! 1 = Some insertion_storage
  ∧ new_lines_of two_imports !! 4 = Some insertion_storage.
Proof.
  destruct (anchor_injection two_imports) as (_ & Hlen & _ & Hat & _).
  split; [rewrite Hlen; reflexivity|].
  split.
  - apply (Hat 0 (TAB :: anchor_cmd ++ [LF])); reflexivity.
  - apply (Hat 2 (TAB :: anchor_cmd ++ [LF])); reflexivity.
Defined.

(** C2: when [cmd/tmux-intray/status.go] does not exist the script raises
    FileNotFoundError at the read and the store is left as it was: the
    write is never reached. *)
Theorem missing_file_untouched (pf : platform) (fs : store) :
  fs !! status_go = None →
  fix_status pf fs = (Raise FileNotFoundError, fs).
Proof. rewrite fix_status_with_program. apply fix_status_with_missing. Qed.

Lemma missing_file_untouched_witness :
  fix_status Posix ∅ = (Raise FileNotFoundError, ∅).
Proof. apply missing_file_untouched. reflexivity. Defined.

(** C3: on ["if len(fields) <= 8 { return fields[8] }"] the first rule
    rewrites the length comparison, the second the index expression, and
    the other four rules change nothing, so the two rules alone and the
    whole chain both give
    ["if len(fields) <= storage.FieldLevel { return fields[storage.FieldLevel] }"]. *)
Theorem level_scenario :
  re_sub pat_len8 rep_len8 (lit "if len(fields) <= 8 { return fields[8] }")
  = Ok (lit "if len(fields) <= storage.FieldLevel { return fields[8] }")
  ∧ re_sub pat_idx8 rep_idx8
      (lit "if len(fields) <= storage.FieldLevel { return fields[8] }")
    = Ok (lit "if len(fields) <= storage.FieldLevel { return fields[storage.FieldLevel] }")
  ∧ apply_rules (take 2 program_rules)
      (lit "if len(fields) <= 8 { return fields[8] }")
    = Ok (lit "if len(fields) <= storage.FieldLevel { return fields[storage.FieldLevel] }")
  ∧ Forall (λ rl : rule,
      re_sub rl.1 rl.2
        (lit "if len(fields) <= storage.FieldLevel { return fields[storage.FieldLevel] }")
      = Ok (lit "if len(fields) <= storage.FieldLevel { return fields[storage.FieldLevel] }"))
      (drop 2 program_rules)
  ∧ rewrite_content (lit "if len(fields) <= 8 { return fields[8] }")
    = Ok (lit "if len(fields) <= storage.FieldLevel { return fields[storage.FieldLevel] }").
Proof. split_and!; [by vm_compute..| |by vm_compute]. by repeat constructor. Qed.

(** C4: the six assignments are the left fold of [re.sub] over the rule
    list in program order, each rule reading the text the previous one
    produced.  Each rule works on the whole text and replaces every
    occurrence of its pattern, not only the first: a text without an
    occurrence is kept, the leftmost occurrence is replaced and the scan
    goes on behind it, and (no pattern of the script overlaps itself)
    whatever stands before and behind an occurrence is rewritten in the
    same way.  When the file is there and decodes, the text the script
    writes is this fold over the joined lines. *)
Theorem rewrite_is_fold (content : text) :
  rewrite_content content
  = fold_left (λ acc '(pattern, repl), result_bind acc (re_sub pattern repl))
              program_rules (Ok content)
  ∧ rewrite_content content
    = Ok (fold_left (λ acc '(p, r), sub_literal p r acc) lit_rules content)
  ∧ (∀ p r, (p, r) ∈ lit_rules →
       sub_literal p r [] = []
       ∧ (∀ s, ¬ occurs p s → sub_literal p r s = s)
       ∧ (∀ u v, ¬ occurs p (u ++ removelast p) →
            sub_literal p r (u ++ p ++ v) = u ++ r ++ sub_literal p r v)
       ∧ (∀ u v, sub_literal p r (u ++ p ++ v)
                 = sub_literal p r u ++ r ++ sub_literal p r v))
  ∧ (∀ pf fs raw, fs !! status_go = Some (File raw) → decodes raw = true →
       fix_status pf fs
       = (Ok tt,
          <[status_go :=
              File (write_newlines pf
                (fold_left (λ acc '(p, r), sub_literal p r acc) lit_rules
                   (join (new_lines_of (readlines raw)))))]> fs)).
Proof.
  split_and!.
  - reflexivity.
  - apply rewrite_content_ok.
  - intros p r Hin.
    assert (p ≠ [] ∧ ¬ enters p p) as [Hp Hself].
    { assert (Forall (λ rl : rule, rl.1 ≠ [] ∧ ¬ enters rl.1 rl.1) lit_rules)
        as Hall by (unfold enters; compute_done).
      rewrite Forall_forall in Hall. apply (Hall (p, r) Hin). }
    split_and!.
    + by destruct p.
    + intros s. by apply sub_absent.
    + intros u v. by apply sub_leftmost.
    + intros u v. apply sub_around; [done..|]. by apply sub_match.
  - intros pf fs raw. apply fix_status_run.
Qed.

(** C5: the order of the rules can be observed.  On
    ["len(fields) <= 8en(fields) <= 5"] the first rule leaves
    ["...FieldLevel"] in front of ["en(fields) <= 5"], which the third
    rule then rewrites; with the first and the third rule exchanged the
    third finds nothing, and the final text is another one. *)
Theorem rule_order_matters :
  program_rules !! 0 = Some (pat_len8, rep_len8)
  ∧ program_rules !! 2 = Some (pat_len5, rep_len5)
  ∧ apply_rules program_rules (lit "len(fields) <= 8en(fields) <= 5")
    = Ok (lit "len(fields) <= storage.FieldLevelen(fields) <= storage.FieldPane")
  ∧ apply_rules (swapped 0 2 program_rules)
      (lit "len(fields) <= 8en(fields) <= 5")
    = Ok (lit "len(fields) <= storage.FieldLevelen(fields) <= 5")
  ∧ apply_rules (swapped 0 2 program_rules)
      (lit "len(fields) <= 8en(fields) <= 5")
    ≠ apply_rules program_rules (lit "len(fields) <= 8en(fields) <= 5").
Proof. split_and!; [by vm_compute..|]. by vm_compute. Qed.

(** C8: a rule whose pattern does not compile makes the script fail
    before the file is opened for writing, whatever the pattern and
    whatever the engine, as long as [re.sub] raises when its pattern does
    not compile.  With such a rule in the list the run never completes
    and the store is left as it was; it raises PatternError when the file
    is there and decodes and every rule gives a text or that error; and
    whenever the script raises PatternError the store is unchanged.  The
    script is this sequence of statements over its six rules. *)
Theorem pattern_error_before_write (E : regex_engine) (pf : platform)
    (rules : list rule) (fs : store) (pattern repl : text) :
  raises_on_failure E →
  (pattern, repl) ∈ rules →
  engine_compiles E pattern = false →
  (fix_status_over (engine_sub E) pf rules fs).2 = fs
  ∧ (∀ u, (fix_status_over (engine_sub E) pf rules fs).1 ≠ Ok u)
  ∧ (∀ raw, fs !! status_go = Some (File raw) → decodes raw = true →
       Forall (regular E) rules →
       fix_status_over (engine_sub E) pf rules fs
       = (Raise PatternError, fs))
  ∧ (∀ rules' fs',
       (fix_status_over (engine_sub E) pf rules' fs').1 = Raise PatternError →
       (fix_status_over (engine_sub E) pf rules' fs').2 = fs')
  ∧ fix_status pf = fix_status_over re_sub pf program_rules.
Proof.
  intros HE Hin Hbad.
  assert (∀ u, (fix_status_over (engine_sub E) pf rules fs).1 ≠ Ok u)
    as Hfail.
  { intros u. destruct (fs !! status_go) as [[raw|]|] eqn:Hfs.
    - destruct (decodes raw) eqn:Hdec.
      + rewrite (fix_status_over_run _ _ _ _ raw Hfs Hdec).
        pose proof (apply_rules_over_failure E rules pattern repl
                      (join (new_lines_of (readlines raw))) HE Hin Hbad)
          as Hno.
        destruct (apply_rules_over _ rules _) as [t| |]; [|done..].
        by destruct (Hno t).
      + by rewrite (fix_status_over_undecodable _ _ _ _ raw).
    - by rewrite fix_status_over_directory.
    - by rewrite fix_status_over_missing. }
  split_and!.
  - by apply fix_status_over_failure.
  - exact Hfail.
  - intros raw Hfs Hdec Hreg.
    rewrite (fix_status_over_run _ _ _ _ raw Hfs Hdec).
    pose proof (apply_rules_over_failure E rules pattern repl
                  (join (new_lines_of (readlines raw))) HE Hin Hbad) as Hno.
    destruct (apply_rules_over_regular E rules
                (join (new_lines_of (readlines raw))) Hreg)
      as [[t Ht]|Hraise].
    + by destruct (Hno t).
    + by rewrite Hraise.
  - intros rules' fs' Hraise. apply fix_status_over_failure.
    intros u. by rewrite Hraise.
  - reflexivity.
Qed.

Lemma pattern_error_before_write_witness :
  fix_status_over (engine_sub fragment_engine) Posix broken_rules
    {[ status_go := File (lit "fields[8]") ]}
  = (Raise PatternError, {[ status_go := File (lit "fields[8]") ]}).
Proof.
  destruct (pattern_error_before_write fragment_engine Posix broken_rules
              {[ status_go := File (lit "fields[8]") ]}
              (lit "fields" ++ [BACKSLASH]) rep_idx8)
    as (_ & _ & Hraise & _).
  - apply fragment_engine_raises.
  - apply list_elem_of_further, list_elem_of_here.
  - reflexivity.
  - apply (Hraise (lit "fields[8]")).
    + apply lookup_singleton_eq.
    + reflexivity.
    + apply Forall_cons. split; [intros s; left; by eexists|].
      apply Forall_cons. split; [intros s; by right|constructor].
Defined.

(** C6, as the code has it: no replacement text contains a match for any
    pattern, and the six substitutions applied twice equal the six
    substitutions applied once exactly when the once-rewritten text holds
    no match of any pattern, which is exactly when the input does not
    contain ["len(fields) <= 8en(fields) <= 8"]: there the replacement
    ["...FieldLevel"] ends in the ["l"] that, with the text behind it,
    spells ["len(fields) <= 8"] again. *)
Theorem rewrite_twice (content : text) :
  Forall (λ rl : rule,
            Forall (λ rl' : rule, contains rl.1 rl'.2 = false) lit_rules)
         lit_rules
  ∧ rewrite_content content = Ok (rewrite_text content)
  ∧ (result_bind (rewrite_content content) rewrite_content
     = rewrite_content content
     ↔ Forall (λ rl : rule, contains rl.1 (rewrite_text content) = false)
              lit_rules)
  ∧ (result_bind (rewrite_content content) rewrite_content
     = rewrite_content content
     ↔ contains relapse content = false).
Proof.
  assert (result_bind (rewrite_content content) rewrite_content
          = rewrite_content content
          ↔ Forall (λ rl : rule, ¬ occurs rl.1 (rewrite_text content))
                   lit_rules) as Hfixed.
  { rewrite rewrite_content_ok. cbn [result_bind].
    rewrite rewrite_content_ok.
    rewrite <- (rewrite_with_fixed lit_rules (rewrite_text content)
                  lit_rules_nonempty lit_rules_longer).
    split; [intros [= H]; exact H|]. intros H. f_equal. exact H. }
  split_and!.
  - compute_done.
  - apply rewrite_content_ok.
  - rewrite Hfixed. apply Forall_iff. intros rl. by rewrite contains_false.
  - rewrite Hfixed, contains_false. split.
    + intros Hnone Hocc. apply rewrite_text_relapses in Hocc.
      rewrite Forall_forall in Hnone.
      apply (Hnone (lit "len(fields) <= 8", rep_len8)); [|done].
      apply list_elem_of_here.
    + apply rewrite_text_settled.
Qed.

(** C6 fails as stated: on ["len(fields) <= 8en(fields) <= 8"] the first
    pass rewrites the leading comparison and leaves a new match behind
    it, which the second pass rewrites. *)
Lemma rewrite_twice_counterexample :
  rewrite_content (lit "len(fields) <= 8en(fields) <= 8")
  = Ok (lit "len(fields) <= storage.FieldLevelen(fields) <= 8")
  ∧ rewrite_content (lit "len(fields) <= storage.FieldLevelen(fields) <= 8")
    = Ok (lit "len(fields) <= storage.FieldLevelen(fields) <= storage.FieldLevel")
  ∧ result_bind (rewrite_content (lit "len(fields) <= 8en(fields) <= 8"))
                rewrite_content
    ≠ rewrite_content (lit "len(fields) <= 8en(fields) <= 8").
Proof. split_and!; by vm_compute. Qed.

(** C7: on every file that decodes and has a line that contains the
    anchor, running the script twice differs from running it once.  The
    first run succeeds and its output still has a line with the anchor;
    the second run succeeds too and writes the injection and rewriting of
    the first output, which holds one more line feed per anchor line of
    the first output; so the second output is not the first. *)
Theorem pipeline_not_idempotent (pf : platform) (fs : store) (raw : text)
    (l : text) :
  fs !! status_go = Some (File raw) →
  decodes raw = true →
  l ∈ readlines raw →
  contains anchor_cmd l = true →
  ∃ once twice,
    fix_status pf fs = (Ok tt, <[status_go := File once]> fs)
    ∧ fix_status pf (<[status_go := File once]> fs)
      = (Ok tt, <[status_go := File twice]> fs)
    ∧ (∃ l', l' ∈ readlines once ∧ contains anchor_cmd l' = true)
    ∧ twice
      = write_newlines pf
          (rewrite_text (join (new_lines_of (readlines once))))
    ∧ count_char LF (universal_newlines twice)
      = count_char LF (universal_newlines once)
        + matching anchor_cmd (readlines once)
    ∧ 0 < matching anchor_cmd (readlines once)
    ∧ twice ≠ once.
Proof.
  intros Hfs Hdec Hl Hc.
  set (t1 := transform (universal_newlines raw)).
  set (t2 := transform t1).
  assert (CR ∉ t1) as Hcr1.
  { apply transform_no_CR, universal_newlines_no_CR. }
  assert (CR ∉ t2) as Hcr2 by by apply transform_no_CR.
  assert (readlines (write_newlines pf t1) = split_lines t1) as Hread.
  { unfold readlines. by rewrite universal_write_newlines. }
  assert (decodes (write_newlines pf t1) = true) as Hdec1.
  { unfold t1. by rewrite written_decodes. }
  destruct (transform_keeps_anchor _ l Hl Hc) as (l' & Hl' & Hc').
  fold t1 in Hl'.
  assert (0 < matching anchor_cmd (split_lines t1)) as Hpos.
  { by apply (matching_positive _ _ l'). }
  exists (write_newlines pf t1), (write_newlines pf t2). split_and!.
  - by apply fix_status_transform.
  - rewrite (fix_status_transform pf _ (write_newlines pf t1));
      [|apply lookup_insert_eq|done].
    rewrite universal_write_newlines by done. by rewrite insert_insert_eq.
  - exists l'. by rewrite Hread.
  - by rewrite Hread.
  - rewrite Hread, !universal_write_newlines by done.
    apply transform_count_LF.
  - by rewrite Hread.
  - intros Heq. apply write_newlines_inj in Heq; [|done..].
    pose proof (transform_count_LF t1) as Hcount. fold t2 in Hcount.
    rewrite Heq in Hcount. lia.
Qed.

(** A file that is just the [cmd] import line. *)
Lemma pipeline_not_idempotent_witness :
  ∃ once twice,
    fix_status Posix {[ status_go := File (TAB :: anchor_cmd ++ [LF]) ]}
    = (Ok tt,
       <[status_go := File once]>
         {[ status_go := File (TAB :: anchor_cmd ++ [LF]) ]})
    ∧ fix_status Posix
        (<[status_go := File once]>
           {[ status_go := File (TAB :: anchor_cmd ++ [LF]) ]})
      = (Ok tt,
         <[status_go := File twice]>
           {[ status_go := File (TAB :: anchor_cmd ++ [LF]) ]})
    ∧ twice ≠ once.
Proof.
  destruct (pipeline_not_idempotent Posix
              {[ status_go := File (TAB :: anchor_cmd ++ [LF]) ]}
              (TAB :: anchor_cmd ++ [LF]) (TAB :: anchor_cmd ++ [LF]))
    as (once & twice & H1 & H2 & _ & _ & _ & _ & H3).
  - apply lookup_singleton_eq.
  - reflexivity.
  - vm_compute. apply list_elem_of_here.
  - reflexivity.
  - exists once, twice. split_and!; assumption.
Defined.

(** C9: a matched final line goes into the joined text followed directly
    by the insertion.  When that line has no line feed the two form one
    textual line of the output; when it ends in a line feed the insertion
    is a line of its own. *)
Theorem insertion_joins_last_line (raw : text) (ls : list text) (l : text) :
  readlines raw = ls ++ [l] →
  contains anchor_cmd l = true →
  join (new_lines_of (readlines raw))
  = join (new_lines_of ls) ++ l ++ insertion_storage
  ∧ (LF ∉ l →
     last (split_lines (join (new_lines_of (readlines raw))))
     = Some (l ++ insertion_storage))
  ∧ (LF ∈ l →
     last (split_lines (join (new_lines_of (readlines raw))))
     = Some insertion_storage).
Proof.
  intros Hread Hc.
  assert (join (new_lines_of (readlines raw))
          = join (new_lines_of ls) ++ l ++ insertion_storage) as Hjoin.
  { rewrite Hread, new_lines_app. unfold join. rewrite concat_app.
    f_equal. unfold new_lines_of, inject_lines, inject_from. cbn [fold_left].
    unfold inject_step. rewrite Hc. cbn [app concat]. by rewrite app_nil_r. }
  assert (Forall terminated (new_lines_of ls)) as Hterm.
  { apply new_lines_terminated.
    by apply (split_lines_init_terminated (universal_newlines raw) ls l). }
  split_and!; [done|..].
  - intros Hl. rewrite Hjoin, split_lines_join_terminated by done.
    rewrite last_split_lines_insertion by done. apply last_snoc.
  - intros Hl.
    assert (terminated l) as [l' ->].
    { apply (split_lines_terminated (universal_newlines raw)); [|done].
      fold (readlines raw). rewrite Hread. apply elem_of_app. right.
      apply list_elem_of_here. }
    rewrite Hjoin.
    assert (join (new_lines_of ls) ++ (l' ++ [LF]) ++ insertion_storage
            = join (new_lines_of ls ++ [l' ++ [LF]]) ++ insertion_storage)
      as ->.
    { unfold join. rewrite concat_app. cbn [concat].
      by rewrite (app_nil_r (l' ++ [LF])), <- (app_assoc (concat _)). }
    rewrite split_lines_join_terminated.
    2:{ apply Forall_app. split; [done|]. apply Forall_singleton. by exists l'. }
    change (split_lines insertion_storage) with [insertion_storage].
    apply last_snoc.
Qed.

(** A file that ends with the import line and no line feed. *)
Lemma insertion_joins_last_line_witness :
  join (new_lines_of (readlines (TAB :: anchor_cmd)))
  = TAB :: anchor_cmd ++ insertion_storage
  ∧ last (split_lines (join (new_lines_of (readlines (TAB :: anchor_cmd)))))
    = Some (TAB :: anchor_cmd ++ insertion_storage).
Proof.
  destruct (insertion_joins_last_line (TAB :: anchor_cmd) [] (TAB :: anchor_cmd))
    as (H1 & H2 & _); [reflexivity..|].
  split; [exact H1|]. apply H2. compute_done.
Defined.

(** C10, as the code has it: when the file decodes, no line contains the
    anchor and no pattern occurs in the text read, the script writes back
    the text it read, that is the original with every ["\r\n"] and lone
    ["\r"] turned into ["\n"], each ["\n"] then written as the
    platform's line separator.  So such a file without carriage return is
    rewritten byte for byte where the separator is ["\n"], a missing
    final newline included. *)
Theorem unmatched_file_written_back (pf : platform) (fs : store) (raw : text) :
  fs !! status_go = Some (File raw) →
  decodes raw = true →
  matching anchor_cmd (readlines raw) = 0 →
  Forall (λ rl : rule, contains rl.1 (universal_newlines raw) = false)
         lit_rules →
  fix_status pf fs
  = (Ok tt,
     <[status_go := File (write_newlines pf (universal_newlines raw))]> fs)
  ∧ (pf = Posix → CR ∉ raw → fix_status pf fs = (Ok tt, fs)).
Proof.
  intros Hfs Hdec Hanchor Hpat.
  assert (fix_status pf fs
          = (Ok tt,
             <[status_go := File (write_newlines pf (universal_newlines raw))]>
               fs))
    as Hrun.
  { rewrite (fix_status_run pf fs raw Hfs Hdec). do 4 f_equal.
    unfold new_lines_of. rewrite inject_lines_no_match by done.
    unfold readlines. rewrite join_split_lines.
    apply rewrite_with_absent; [apply lit_rules_nonempty|].
    by apply absent_by_contains. }
  split; [done|]. intros -> Hcr. rewrite Hrun.
  rewrite write_newlines_posix, universal_newlines_id by done.
  by rewrite insert_id.
Qed.

Lemma unmatched_file_written_back_witness :
  fix_status Posix {[ status_go := File (lit "package main") ]}
  = (Ok tt, {[ status_go := File (lit "package main") ]}).
Proof.
  apply (unmatched_file_written_back Posix
           {[ status_go := File (lit "package main") ]} (lit "package main")).
  - apply lookup_singleton_eq.
  - reflexivity.
  - reflexivity.
  - compute_done.
  - reflexivity.
  - compute_done.
Defined.

(** C10 fails as stated: a file with ["\r\n"] line endings, no anchor and
    no match comes back with ["\n"] endings where the separator is
    ["\n"], and a lone ["\r"] is replaced on either platform. *)
Lemma unmatched_file_counterexample :
  matching anchor_cmd (readlines (lit "package main" ++ [CR; LF])) = 0
  ∧ Forall (λ rl : rule,
              contains rl.1 (lit "package main" ++ [CR; LF]) = false)
           lit_rules
  ∧ decodes (lit "package main" ++ [CR; LF]) = true
  ∧ fix_status Posix {[ status_go := File (lit "package main" ++ [CR; LF]) ]}
    = (Ok tt, {[ status_go := File (lit "package main" ++ [LF]) ]})
  ∧ lit "package main" ++ [LF] ≠ lit "package main" ++ [CR; LF]
  ∧ fix_status Windows
      {[ status_go := File (lit "package" ++ [CR] ++ lit "main") ]}
    = (Ok tt, {[ status_go := File (lit "package" ++ [CR; LF] ++ lit "main") ]}).
Proof.
  split_and!.
  - reflexivity.
  - compute_done.
  - reflexivity.
  - rewrite (fix_status_run Posix _ (lit "package main" ++ [CR; LF]));
      [|apply lookup_singleton_eq|reflexivity].
    by rewrite insert_singleton_eq.
  - compute_done.
  - rewrite (fix_status_run Windows _ (lit "package" ++ [CR] ++ lit "main"));
      [|apply lookup_singleton_eq|reflexivity].
    by rewrite insert_singleton_eq.
Qed.

(** * Further properties of the script *)

(** ** Reading *)

Lemma elem_of_removelast (c : ascii) (l : text) : c ∈ removelast l → c ∈ l.
Proof.
  induction l as [|d l IH]; [done|]. destruct l as [|e l]; cbn [removelast].
  - by intros ?%elem_of_nil.
  - rewrite !(elem_of_cons _ c d). intros [->|H]; [by left|right; by apply IH].
Qed.

Lemma split_lines_shape (s : text) :
  Forall (λ l, l ≠ [] ∧ (LF ∉ removelast l)) (split_lines s).
Proof.
  induction s as [|u Hu Hu'|u v Hu IH] using lines_ind.
  - constructor.
  - rewrite split_lines_single by done. apply Forall_singleton.
    split; [done|]. intros H. by apply Hu, elem_of_removelast.
  - rewrite split_lines_first by done. apply Forall_cons. split; [|done].
    split; [by destruct u|]. by rewrite removelast_last.
Qed.

Lemma universal_newlines_nil (raw : text) :
  universal_newlines raw = [] ↔ raw = [].
Proof.
  split; [|by intros ->]. destruct raw as [|c [|d raw]]; [done|..];
    cbn [universal_newlines]; destruct (Ascii.eqb c CR); try done.
  by destruct (Ascii.eqb d LF).
Qed.

(** Joining the lines read gives the text read: the file with its line
    endings turned into line feeds, the file itself when it holds no
    carriage return. *)
Theorem readlines_join (raw : text) :
  join (readlines raw) = universal_newlines raw
  ∧ (CR ∉ raw → join (readlines raw) = raw).
Proof.
  unfold readlines. rewrite join_split_lines. split; [done|].
  apply universal_newlines_id.
Qed.

(** The lines read are never empty, hold a line feed only as their last
    character and no carriage return; all but the last end in a line
    feed; and there is no line exactly when the file is empty. *)
Theorem readlines_shape (raw : text) :
  Forall (λ l, l ≠ [] ∧ (LF ∉ removelast l) ∧ (CR ∉ l)) (readlines raw)
  ∧ (∀ ls l, readlines raw = ls ++ [l] → Forall terminated ls)
  ∧ (readlines raw = [] ↔ raw = []).
Proof.
  split_and!.
  - apply Forall_forall. intros l Hl.
    pose proof (split_lines_shape (universal_newlines raw)) as Hshape.
    rewrite Forall_forall in Hshape. destruct (Hshape l Hl) as [Hne Hlf].
    split_and!; [done..|]. intros Hcr.
    apply (universal_newlines_no_CR raw).
    rewrite <- (join_split_lines (universal_newlines raw)).
    apply elem_of_join. by exists l.
  - intros ls l. apply split_lines_init_terminated.
  - rewrite <- universal_newlines_nil. unfold readlines. split.
    + intros H. rewrite <- (join_split_lines (universal_newlines raw)).
      by rewrite H.
    + by intros ->.
Qed.

(** ** Injecting *)

Lemma matching_app (anchor : text) (l1 l2 : list text) :
  matching anchor (l1 ++ l2) = matching anchor l1 + matching anchor l2.
Proof. unfold matching. by rewrite filter_app, length_app. Qed.

(** The injector drops and reorders nothing: the input lines are a
    subsequence of the output, and an output line is an input line or,
    when some line holds the anchor, the insertion line. *)
Theorem injector_keeps_lines (lines : list text) :
  lines `sublist_of` new_lines_of lines
  ∧ (∀ l, l ∈ new_lines_of lines
          ↔ l ∈ lines
            ∨ (l = insertion_storage ∧ 0 < matching anchor_cmd lines)).
Proof.
  split; [|intros l; apply elem_of_new_lines].
  unfold new_lines_of. rewrite inject_lines_emitted.
  induction lines as [|l lines IH]; [constructor|].
  cbn [flat_map]. unfold emitted at 1.
  destruct (contains anchor_cmd l); cbn [app].
  - by apply sublist_skip, sublist_cons.
  - by apply sublist_skip.
Qed.

(** The loop keeps no state between lines: injecting into two pieces of a
    file and putting the results together is injecting into the whole. *)
Theorem injector_concatenation (lines1 lines2 : list text) :
  new_lines_of (lines1 ++ lines2)
  = new_lines_of lines1 ++ new_lines_of lines2.
Proof. apply new_lines_app. Qed.

(** The inserted line does not hold the anchor, so injection leaves the
    number of anchor lines as it is, and injecting twice adds the
    insertion twice per anchor line. *)
Theorem injector_repeated (lines : list text) :
  matching anchor_cmd (new_lines_of lines) = matching anchor_cmd lines
  ∧ length (new_lines_of (new_lines_of lines))
    = length lines + 2 * matching anchor_cmd lines.
Proof.
  assert (matching anchor_cmd (new_lines_of lines)
          = matching anchor_cmd lines) as Hsame.
  { unfold new_lines_of. rewrite inject_lines_emitted.
    induction lines as [|l lines IH]; [done|].
    cbn [flat_map]. rewrite matching_app, IH, matching_cons.
    unfold emitted. destruct (contains anchor_cmd l) eqn:Hl.
    - rewrite !matching_cons, Hl, insertion_storage_no_anchor. done.
    - rewrite matching_cons, Hl. done. }
  split; [done|]. unfold new_lines_of in *.
  rewrite !inject_lines_length, Hsame. lia.
Qed.

(** What the injector adds can be taken out again: without the lines
    equal to the insertion line, output and input are the same, so an
    input that has no such line is got back. *)
Theorem injection_undone (lines : list text) :
  filter (λ l, l ≠ insertion_storage) (new_lines_of lines)
  = filter (λ l, l ≠ insertion_storage) lines
  ∧ (insertions insertion_storage lines = 0 →
     filter (λ l, l ≠ insertion_storage) (new_lines_of lines) = lines).
Proof.
  assert (filter (λ l, l ≠ insertion_storage) (new_lines_of lines)
          = filter (λ l, l ≠ insertion_storage) lines) as Hfilter.
  { unfold new_lines_of. rewrite inject_lines_emitted.
    induction lines as [|l lines IH]; [done|].
    cbn [flat_map]. rewrite filter_app, IH, (filter_cons _ l lines).
    unfold emitted.
    destruct (contains anchor_cmd l) eqn:Hl; rewrite !filter_cons, filter_nil.
    - destruct (decide (insertion_storage ≠ insertion_storage)); [done|].
      by destruct (decide (l ≠ insertion_storage)).
    - by destruct (decide (l ≠ insertion_storage)). }
  split; [done|]. rewrite Hfilter. clear Hfilter.
  induction lines as [|l lines IH]; [done|].
  rewrite insertions_cons, filter_cons.
  destruct (decide (l = insertion_storage)); [lia|].
  intros H. rewrite decide_True by done. f_equal. apply IH. lia.
Qed.

(** ** Rewriting *)

Lemma rewrite_with_same_length (rules : list rule) (s : text) :
  nonempty_patterns rules →
  Forall (λ rl : rule, length rl.1 < length rl.2) rules →
  length (rewrite_with rules s) = length s → rewrite_with rules s = s.
Proof.
  intros Hne. revert s.
  induction Hne as [|[p r] rs Hp Hne IH]; [done|].
  intros s. rewrite Forall_cons. intros [Hpr Hrs] Hlen. cbn [fst snd] in *.
  rewrite rewrite_with_cons in Hlen |- *.
  assert (Forall (λ rl : rule, length rl.1 ≤ length rl.2) rs) as Hle.
  { eapply Forall_impl; [exact Hrs|]. intros rl. cbn beta. lia. }
  pose proof (rewrite_with_length rs (sub_literal p r s) Hne Hle) as Hge.
  pose proof (sub_length p r s Hp ltac:(lia)) as Hge'.
  assert (¬ occurs p s) as Hno.
  { intros Hocc. pose proof (sub_longer p r s Hp Hpr Hocc). lia. }
  rewrite sub_absent in Hlen |- * by done. by apply IH.
Qed.

(** The rewriting never shortens a text, and it leaves a text as it is
    exactly when no pattern occurs in it, which is also the only way for
    the length to stay the same. *)
Theorem rewrite_fixed_point (s : text) :
  length s ≤ length (rewrite_text s)
  ∧ (rewrite_text s = s
     ↔ Forall (λ rl : rule, contains rl.1 s = false) lit_rules)
  ∧ (length (rewrite_text s) = length s ↔ rewrite_text s = s).
Proof.
  unfold rewrite_text. split_and!.
  - apply rewrite_with_length; [apply lit_rules_nonempty|].
    eapply Forall_impl; [apply lit_rules_longer|]. intros rl. cbn beta. lia.
  - rewrite (rewrite_with_fixed lit_rules s lit_rules_nonempty lit_rules_longer).
    apply Forall_iff. intros rl. by rewrite contains_false.
  - split; [|by intros ->].
    apply rewrite_with_same_length;
      [apply lit_rules_nonempty|apply lit_rules_longer].
Qed.

Lemma rewrite_text_no_LF (u : text) : LF ∉ u → LF ∉ rewrite_text u.
Proof.
  intros Hu Hin. unfold rewrite_text in Hin.
  apply rewrite_with_elem_of in Hin as [Hin|Hin];
    [done| |apply lit_rules_nonempty].
  revert Hin. apply Forall_Exists_neg.
  eapply Forall_impl; [apply (lit_rules_foreign LF); compute_done|].
  by intros rl [_ ?].
Qed.

Lemma rewrite_text_line_feed (u v : text) :
  rewrite_text (u ++ LF :: v) = rewrite_text u ++ LF :: rewrite_text v.
Proof.
  apply rewrite_with_barrier; [apply lit_rules_nonempty|].
  apply lit_rules_foreign_patterns. compute_done.
Qed.

(** The rewriting never joins or splits lines: the lines of the rewritten
    text are the rewritten lines of the text. *)
Theorem rewrite_line_by_line (s : text) :
  split_lines (rewrite_text s) = rewrite_text <$> split_lines s.
Proof.
  induction s as [|u Hu Hu'|u v Hu IH] using lines_ind.
  - done.
  - rewrite (split_lines_single u) by done. cbn [fmap list_fmap].
    apply split_lines_single; [by apply rewrite_text_no_LF|].
    assert (length u ≤ length (rewrite_text u)) as Hlen.
    { apply rewrite_with_length; [apply lit_rules_nonempty|].
      eapply Forall_impl; [apply lit_rules_longer|]. intros rl. cbn beta. lia. }
    intros Hnil. rewrite Hnil in Hlen. destruct u; simpl in *; [done|lia].
  - rewrite rewrite_text_line_feed, (split_lines_first u v) by done.
    rewrite split_lines_first by by apply rewrite_text_no_LF.
    cbn [fmap list_fmap]. rewrite IH. f_equal.
    by rewrite (rewrite_text_line_feed u []).
Qed.

(** A double-quoted stretch in which no pattern occurs is kept letter for
    letter, wherever it stands, and the text around it is rewritten as if
    it stood alone. *)
Theorem rewrite_keeps_quoted (u w v : text) :
  Forall (λ rl : rule, contains rl.1 w = false) lit_rules →
  rewrite_text (u ++ DQ :: w ++ DQ :: v)
  = rewrite_text u ++ DQ :: w ++ DQ :: rewrite_text v.
Proof.
  intros Hw. unfold rewrite_text.
  assert (Forall (λ rl : rule, DQ ∉ rl.1) lit_rules) as HDQ.
  { apply lit_rules_foreign_patterns. compute_done. }
  rewrite !rewrite_with_barrier by (done || apply lit_rules_nonempty).
  rewrite (rewrite_with_absent _ w)
    by (apply lit_rules_nonempty || by apply absent_by_contains).
  done.
Qed.

Lemma rewrite_keeps_quoted_witness :
  rewrite_text (lit "fields[8]" ++ DQ :: lit "fields[9]" ++ DQ :: lit "fields[3]")
  = rewrite_text (lit "fields[8]") ++ DQ :: lit "fields[9]"
      ++ DQ :: rewrite_text (lit "fields[3]").
Proof. apply rewrite_keeps_quoted. compute_done. Defined.

Lemma rewrite_with_nil (rules : list rule) :
  nonempty_patterns rules → rewrite_with rules [] = [].
Proof.
  intros Hne. apply rewrite_with_absent; [done|].
  eapply Forall_impl; [exact Hne|]. intros rl Hrl (a & b & H).
  symmetry in H. apply app_eq_nil in H as [_ H].
  by apply app_eq_nil in H as [? _].
Qed.

Lemma rewrite_with_barrier_head (rules : list rule) (c : ascii) (v : text) :
  nonempty_patterns rules →
  Forall (λ rl : rule, c ∉ rl.1) rules →
  rewrite_with rules (c :: v) = c :: rewrite_with rules v.
Proof.
  intros Hne Hc. change (c :: v) with ([] ++ c :: v).
  rewrite (rewrite_with_barrier rules c [] v) by done.
  by rewrite rewrite_with_nil.
Qed.

Lemma rewrite_text_imports (u v : text) :
  rewrite_text (u ++ insertion_storage ++ v)
  = rewrite_text u ++ insertion_storage ++ rewrite_text v
  ∧ rewrite_text (u ++ anchor_cmd ++ v)
    = rewrite_text u ++ anchor_cmd ++ rewrite_text v.
Proof.
  assert (∀ c, c ∈ [LF; DQ; TAB] → Forall (λ rl : rule, c ∉ rl.1) lit_rules)
    as Hforeign.
  { intros c. rewrite !elem_of_cons, elem_of_nil.
    intros [->|[->|[->|[]]]]; compute_done. }
  assert (∀ c w, c ∈ [LF; DQ; TAB] →
            rewrite_with lit_rules (c :: w) = c :: rewrite_with lit_rules w)
    as Hhead.
  { intros c w Hc. apply rewrite_with_barrier_head;
      [apply lit_rules_nonempty|by apply Hforeign]. }
  assert (∀ x w, Forall (λ rl : rule, contains rl.1 x = false) lit_rules →
            rewrite_with lit_rules (x ++ DQ :: w)
            = x ++ DQ :: rewrite_with lit_rules w) as Hquoted.
  { intros x w Hx. rewrite rewrite_with_barrier
      by (apply lit_rules_nonempty || (apply Hforeign; compute_done)).
    rewrite (rewrite_with_absent _ x); [done|apply lit_rules_nonempty|].
    by apply absent_by_contains. }
  unfold rewrite_text. split.
  - change insertion_storage
      with (TAB :: DQ
              :: lit "github.com/cristianoliveira/tmux-intray/internal/storage"
              ++ [DQ; LF]).
    cbn [app]. rewrite <- app_assoc. cbn [app].
    rewrite (rewrite_with_barrier _ TAB u)
      by (apply lit_rules_nonempty || (apply Hforeign; compute_done)).
    rewrite (Hhead DQ) by compute_done.
    rewrite Hquoted by compute_done.
    by rewrite (Hhead LF) by compute_done.
  - change anchor_cmd with (DQ :: anchor_path ++ [DQ]).
    cbn [app]. rewrite <- app_assoc. cbn [app].
    rewrite (rewrite_with_barrier _ DQ u)
      by (apply lit_rules_nonempty || (apply Hforeign; compute_done)).
    by rewrite Hquoted by compute_done.
Qed.

(** The line the script inserts and the import line it looks for are not
    touched by its own rewriting. *)
Theorem rewrite_keeps_imports (u v : text) :
  rewrite_text (u ++ insertion_storage ++ v)
  = rewrite_text u ++ insertion_storage ++ rewrite_text v
  ∧ rewrite_text (u ++ anchor_cmd ++ v)
    = rewrite_text u ++ anchor_cmd ++ rewrite_text v.
Proof. apply rewrite_text_imports. Qed.

(** One pass clears the last five patterns from every text; a match of
    the first pattern is left exactly when the input contains
    ["len(fields) <= 8en(fields) <= 8"]. *)
Theorem rewrite_complete (t : text) :
  Forall (λ rl : rule, contains rl.1 (rewrite_text t) = false)
         (drop 1 lit_rules)
  ∧ contains (lit "len(fields) <= 8") (rewrite_text t) = contains relapse t.
Proof.
  split.
  - unfold rewrite_text, lit_rules. rewrite rewrite_with_cons. cbn [drop].
    match goal with
    | |- Forall _ ?rest =>
      destruct (keeps_all_sound rest []
                  (sub_literal (lit "len(fields) <= 8") rep_len8 t))
        as [_ Hrest]; [by vm_compute|constructor|]
    end.
    eapply Forall_impl; [exact Hrest|]. intros rl. apply contains_false.
  - destruct (contains relapse t) eqn:E.
    + apply contains_occurs. by apply rewrite_text_relapses, contains_occurs.
    + apply contains_false. apply contains_false in E.
      pose proof (rewrite_text_settled t E) as H.
      rewrite Forall_forall in H.
      apply (H (lit "len(fields) <= 8", rep_len8)), list_elem_of_here.
Qed.

(** ** The whole run *)

(** The transformation adds one line feed for each line that holds the
    anchor and takes none away. *)
Theorem transform_line_feeds (s : text) :
  count_char LF (transform s)
  = count_char LF s + matching anchor_cmd (split_lines s).
Proof. apply transform_count_LF. Qed.


(** When the file is there and decodes, whoever reads it after the run,
    in text mode on the same platform, reads the transformed text:
    the written file decodes, and writing and reading back lose
    nothing. *)
Theorem written_text_read_back (pf : platform) (fs : store) (raw : text) :
  fs !! status_go = Some (File raw) →
  decodes raw = true →
  ∃ written,
    (fix_status pf fs).2 !! status_go = Some (File written)
    ∧ decodes written = true
    ∧ join (readlines written) = transform (universal_newlines raw)
    ∧ readlines written = split_lines (transform (universal_newlines raw)).
Proof.
  intros Hfs Hdec.
  exists (write_newlines pf (transform (universal_newlines raw))).
  rewrite (fix_status_transform pf fs raw Hfs Hdec). cbn [snd].
  assert (CR ∉ transform (universal_newlines raw)) as Hcr.
  { apply transform_no_CR, universal_newlines_no_CR. }
  split_and!.
  - apply lookup_insert_eq.
  - by rewrite written_decodes.
  - unfold readlines. by rewrite universal_write_newlines, join_split_lines.
  - unfold readlines. by rewrite universal_write_newlines.
Qed.

Lemma written_text_read_back_witness :
  ∃ written,
    (fix_status Windows {[ status_go := File (lit "fields[8]" ++ [LF]) ]}).2
      !! status_go = Some (File written)
    ∧ decodes written = true
    ∧ join (readlines written)
      = transform (universal_newlines (lit "fields[8]" ++ [LF]))
    ∧ readlines written
      = split_lines (transform (universal_newlines (lit "fields[8]" ++ [LF]))).
Proof.
  apply (written_text_read_back Windows
           {[ status_go := File (lit "fields[8]" ++ [LF]) ]}
           (lit "fields[8]" ++ [LF])).
  - apply lookup_singleton_eq.
  - reflexivity.
Defined.

Lemma rewrite_text_nil : rewrite_text [] = [].
Proof. apply rewrite_with_nil, lit_rules_nonempty. Qed.

Lemma rewrite_text_terminated (u v : text) :
  rewrite_text ((u ++ [LF]) ++ v) = rewrite_text (u ++ [LF]) ++ rewrite_text v.
Proof.
  rewrite <- app_assoc. cbn [app].
  rewrite rewrite_text_line_feed, (rewrite_text_line_feed u []).
  by rewrite rewrite_text_nil, <- app_assoc.
Qed.

Lemma transform_emitted (l v : text) :
  rewrite_text (join (emitted anchor_cmd insertion_storage l) ++ v)
  = rewrite_text l
      ++ (if contains anchor_cmd l then insertion_storage else [])
      ++ rewrite_text v
  → rewrite_text (join (emitted anchor_cmd insertion_storage l) ++ v)
    = join (line_outcome l) ++ rewrite_text v.
Proof.
  intros ->. unfold line_outcome, join.
  destruct (contains anchor_cmd l); cbn [concat app];
    by rewrite ?app_nil_r, <- ?app_assoc.
Qed.

(** The whole transformation, line by line: each line is rewritten on its
    own and followed by the insertion line when it held the anchor. *)
Theorem transform_line_by_line (s : text) :
  transform s = join (flat_map line_outcome (split_lines s)).
Proof.
  unfold transform, new_lines_of. rewrite inject_lines_emitted.
  induction s as [|u Hu Hu'|u v Hu IH] using lines_ind.
  - apply rewrite_text_nil.
  - rewrite split_lines_single by done. cbn [flat_map]. rewrite !app_nil_r.
    rewrite <- (app_nil_r (join (emitted _ _ u))),
            <- (app_nil_r (join (line_outcome u))).
    rewrite <- rewrite_text_nil at 2. apply transform_emitted.
    unfold emitted, join. destruct (contains anchor_cmd u); cbn [concat app].
    + rewrite !app_nil_r.
      rewrite <- (app_nil_r insertion_storage) at 1.
      rewrite (proj1 (rewrite_text_imports u [])). by rewrite rewrite_text_nil.
    + by rewrite !app_nil_r.
  - rewrite split_lines_first by done. cbn [flat_map].
    unfold join in *. rewrite !concat_app, <- IH.
    apply (transform_emitted (u ++ [LF])).
    unfold emitted, join. destruct (contains anchor_cmd (u ++ [LF]));
      cbn [concat app]; rewrite ?app_nil_r.
    + rewrite <- !app_assoc.
      rewrite (app_assoc u [LF]), rewrite_text_terminated.
      rewrite <- (app_nil_l (insertion_storage ++ _)).
      rewrite (proj1 (rewrite_text_imports [] _)).
      by rewrite rewrite_text_nil.
    + apply rewrite_text_terminated.
Qed.
